(** * AWS-ORG-DATA-LOAD: the cross-account RDS full load, embedded in Rocq

    A shallow embedding of [src/AWS-ORG-DATA-LOAD.py].  The pure part (key
    upper-casing and the mapping of a snapshot row onto the columns of the
    consolidated table) is a set of ordinary functions.  The effectful part
    (secret store, STS, RDS discovery, source databases, central repository)
    runs in a small trace-and-exception monad: every call to a collaborator
    appends an event to the trace, and what the collaborator answers is read
    from a [world], a record of oracles that may depend on the whole history
    of the run. *)

From Stdlib Require Import String Ascii ZArith DecimalNat DecimalString.
From stdpp Require Import base option list strings gmap fin_maps.

Local Open Scope string_scope.
Local Open Scope list_scope.

(** ** Python values and dictionaries *)

(** The values a source column can hold, as far as the loader looks at them:
    it never inspects a value, it only moves it. *)
Inductive pyval :=
| PNone
| PInt (z : Z)
| PStr (s : string).

#[global] Instance pyval_eq_dec : EqDecision pyval.
Proof. solve_decision. Defined.

(** [str.upper] on column names.  Column names are taken to be ASCII
    identifiers, on which [str.upper] maps [a]..[z] to [A]..[Z] and leaves
    every other character alone. *)
Definition upper_ascii (c : ascii) : ascii :=
  let n := nat_of_ascii c in
  if (97 <=? n)%nat && (n <=? 122)%nat then ascii_of_nat (n - 32) else c.

Fixpoint upper (s : string) : string :=
  match s with
  | EmptyString => EmptyString
  | String c s' => String (upper_ascii c) (upper s')
  end.

(** A snapshot row is a Python [dict]; [row.items()] yields its entries in
    insertion order, which is what the list holds. *)
Abbreviation row := (list (string * pyval)).

(** [{k.upper(): v for k, v in row.items()}]: entries are inserted in order,
    a later entry overwriting an earlier one with the same upper-cased key. *)
Definition row_upper (r : row) : gmap string pyval :=
  fold_left (fun m kv => <[upper kv.1 := kv.2]> m) r ∅.

(** [d.get(k)]: the value, or [None] when the key is missing. *)
Definition dict_get (d : gmap string pyval) (k : string) : pyval :=
  default PNone (d !! k).

(** ** The consolidated record *)

(** One tuple of [params], in the column order of the INSERT statement:
    [(SourceAccount, SourceDB, ID, DESCRIPTION, STATUS, UDATE, INSTALLDATE)]. *)
Record consolidated := mk_consolidated {
  SourceAccount : string;
  SourceDB : string;
  ID : pyval;
  DESCRIPTION : pyval;
  STATUS : pyval;
  UDATE : pyval;
  INSTALLDATE : pyval
}.

#[global] Instance consolidated_eq_dec : EqDecision consolidated.
Proof. solve_decision. Defined.

(** The body of the [for row in data_rows] loop of [save_batch_to_central]. *)
Definition to_params (source_account source_db : string) (r : row) : consolidated :=
  let ru := row_upper r in
  {| SourceAccount := source_account;
     SourceDB := source_db;
     ID := dict_get ru "ID";
     DESCRIPTION := dict_get ru "DESCRIPTION";
     STATUS := dict_get ru "STATUS";
     UDATE := dict_get ru "UDATE";
     INSTALLDATE := dict_get ru "INSTALLDATE" |}.

Definition build_params (source_account source_db : string) (data_rows : list row)
  : list consolidated :=
  map (to_params source_account source_db) data_rows.

(** The keys [save_batch_to_central] reads from the upper-cased row, in the
    order of the columns they feed. *)
Definition code_fields : list string :=
  ["ID"; "DESCRIPTION"; "STATUS"; "UDATE"; "INSTALLDATE"].

(** The value columns of a consolidated record, in the same order. *)
Definition record_values (c : consolidated) : list pyval :=
  [ID c; DESCRIPTION c; STATUS c; UDATE c; INSTALLDATE c].

(** ** Exceptions, events and the run monad *)

(** The exception classes the loader can meet; all derive from [Exception]. *)
Inductive exn :=
| ClientError        (* botocore.exceptions.ClientError *)
| BotoCoreError      (* any other botocore failure, e.g. an unreachable endpoint *)
| JSONDecodeError    (* json.loads on a malformed SecretString *)
| AttributeError     (* [creds.get] on a secret that is not a JSON object *)
| DriverError        (* psycopg2 / pyodbc errors *)
| MissingDriver.     (* Exception("Driver PostgreSQL ausente para o Central") *)

#[global] Instance exn_eq_dec : EqDecision exn.
Proof. solve_decision. Defined.

Inductive outcome (A : Type) :=
| Ret (a : A)
| Raise (e : exn).
Arguments Ret {A} a.
Arguments Raise {A} e.

(** What [json.loads] can return for a secret.  An array is kept by its
    length only: the loader looks at nothing but its truth value. *)
Inductive json :=
| JNull
| JBool (b : bool)
| JNum (z : Z)
| JStr (s : string)
| JArr (len : nat)
| JObj (fields : list (string * string)).

(** Python truthiness, as tested by [if not creds]. *)
Definition truthy (j : json) : bool :=
  match j with
  | JNull => false
  | JBool b => b
  | JNum z => negb (z =? 0)%Z
  | JStr s => negb (String.eqb s "")
  | JArr len => negb (len =? 0)%nat
  | JObj fields => match fields with [] => false | _ => true end
  end.

(** Whether [creds.get(...)] is defined: only a [dict] has [get]. *)
Definition has_get (j : json) : bool :=
  match j with JObj _ => true | _ => false end.

Inductive engine_kind := Mssql | Postgres.

Inductive level := Info | Warning | Error.

(** The log lines of the source, by their call site. *)
Inductive log_msg :=
| StartingLoad
| CleaningUp
| TableCleanedUp
| CleanupFailed
| SecretNotFound (secret_name : string)
| AssumeRoleFailed (account_id : string)
| ListingFailed (account_id : string)
| LoadingFrom (db_id engine : string)
| SkipNoSecret (secret_name : string)
| SourceFailed (k : engine_kind)
| FoundRecords (n : nat)
| InsertedRecords (n : nat) (source_db : string)
| SavingFailed
| NoDataFound.

(** Calls that leave the process, in the order they are made. *)
Inductive event :=
| GetSecretValue (secret_name : string)
| AssumeRole (account_id role_name : string)
| DescribeDBInstances (account_id : string)
| SourceConnect (k : engine_kind) (host : option string) (db_name : string)
| SourceExecute (k : engine_kind) (query : string)
| SourceFetch (k : engine_kind)
| SourceClose (k : engine_kind)
| CentralConnect
| CentralTruncate
| CentralExecuteMany (params : list consolidated)
| CentralCommit
| CentralRollback
| CentralClose
| Log (lvl : level) (msg : log_msg).

Abbreviation trace := (list event).

(** A computation reads the history so far, extends it, and either returns
    or raises. *)
Definition M (A : Type) : Type := trace -> outcome A * trace.

Definition ret {A} (a : A) : M A := fun t => (Ret a, t).

Definition raise {A} (e : exn) : M A := fun t => (Raise e, t).

Definition bind {A B} (m : M A) (k : A -> M B) : M B :=
  fun t =>
    match m t with
    | (Ret a, t') => k a t'
    | (Raise e, t') => (Raise e, t')
    end.

(** [try: m  except <class>: h], where [handles e] says whether the clause
    matches [e]; an exception that is not matched keeps propagating. *)
Definition try_except {A} (m : M A) (handles : exn -> bool) (h : exn -> M A) : M A :=
  fun t =>
    match m t with
    | (Ret a, t') => (Ret a, t')
    | (Raise e, t') => if handles e then h e t' else (Raise e, t')
    end.

(** A call to a collaborator: the answer is a function of the history before
    the call, and the call is recorded. *)
Definition call {B} (e : event) (answer : trace -> B) : M B :=
  fun t => (Ret (answer t), t ++ [e]).

Definition log (lvl : level) (msg : log_msg) : M unit :=
  fun t => (Ret tt, t ++ [Log lvl msg]).

Declare Scope run_scope.
Delimit Scope run_scope with run.
Notation "x <~ m ;; k" := (bind m (fun x => k))
  (at level 100, m at next level, right associativity) : run_scope.
Notation "m ;;; k" := (bind m (fun _ => k))
  (at level 100, right associativity) : run_scope.
Local Open Scope run_scope.

(** [for x in l: s = body(s, x)], stopping at the first exception. *)
Fixpoint for_each {A S} (body : S -> A -> M S) (l : list A) (s : S) : M S :=
  match l with
  | [] => ret s
  | x :: l' => s' <~ body s x ;; for_each body l' s'
  end.

Definition any_exception (e : exn) : bool := true.

Definition client_error (e : exn) : bool :=
  match e with ClientError => true | _ => false end.

(** ** Configuration *)

Definition ROLE_NAME : string := "CUST_DBA_AUDIT".
Definition CENTRAL_REPO_SECRET_NAME : string := "xxx/yyy/zzzzzzzzzzzz/wwwwwwwww".
Definition SOURCE_DB_NAME : string := "dba".
Definition query_all : string := "SELECT * FROM TEST_AUDIT".

Record account := mk_account { Id : string; Name : string }.

(** The two module-level lists of the script, passed explicitly. *)
Record config := mk_config {
  TARGET_ACCOUNTS : list account;
  BLACKLIST_RDS : list string
}.

(** The lists as the script ships them. *)
Definition shipped_config : config :=
  {| TARGET_ACCOUNTS := [mk_account "yyyyyyyyyyy" "AWS Account Y"];
     BLACKLIST_RDS := ["db-1"; "db-2"; "db-3"] |}.

(** One entry of [describe_db_instances()['DBInstances']], with the four
    keys the handler reads, present as the RDS API returns them; [Endpoint]
    holds [db['Endpoint']['Address']], and is [None] when the instance has
    no ['Endpoint'] key. *)
Record db_instance := mk_db {
  DBInstanceIdentifier : string;
  Engine : string;
  Endpoint : option string;
  DBInstanceStatus : string
}.

(** ** The outside world *)

(** [resp['SecretString']], by what [json.loads] makes of it. *)
Inductive secret_string :=
| Malformed
| Parses (j : json).

(** The answer of [get_secret_value]: an exception, or a response with or
    without the ['SecretString'] key. *)
Inductive secret_reply :=
| SecretRaises (e : exn)
| SecretValue (s : option secret_string).

(** Every oracle sees the history of the run up to its call.  [None] as the
    answer of a database operation means it went through, [Some e] that it
    raised [e].  Creating cursors, [rollback], [close] and logging are taken
    never to raise. *)
Record world := mk_world {
  HAS_POSTGRES : bool;
  HAS_MSSQL : bool;
  get_secret_value : trace -> string -> secret_reply;
  sts_assume_role : trace -> string -> string -> option exn;
  describe_db_instances : trace -> string -> outcome (list db_instance);
  source_connect : trace -> engine_kind -> json -> option string -> string -> option exn;
  source_execute : trace -> engine_kind -> string -> option exn;
  source_fetchall : trace -> engine_kind -> outcome (list row);
  central_connect : trace -> json -> option exn;
  central_truncate : trace -> option exn;
  central_executemany : trace -> list consolidated -> option exn;
  central_commit : trace -> option exn
}.

(** A database call that returns nothing: record it, raise what it raises. *)
Definition call_db (e : event) (answer : trace -> option exn) : M unit :=
  r <~ call e answer ;;
  match r with
  | None => ret tt
  | Some err => raise err
  end.

(** A call that returns a value or raises. *)
Definition call_value {B} (e : event) (answer : trace -> outcome B) : M B :=
  r <~ call e answer ;;
  match r with
  | Ret b => ret b
  | Raise err => raise err
  end.

(** ** Secrets and role assumption *)

Definition json_loads (s : secret_string) : M json :=
  match s with
  | Malformed => raise JSONDecodeError
  | Parses j => ret j
  end.

(** [get_secret_local]; Python's [None] is [JNull]. *)
Definition get_secret_local (w : world) (secret_name : string) : M json :=
  try_except
    (resp <~ call (GetSecretValue secret_name)
                  (fun h => get_secret_value w h secret_name) ;;
     match resp with
     | SecretRaises e => raise e
     | SecretValue (Some s) => json_loads s
     | SecretValue None => ret JNull
     end)
    client_error
    (fun _ => log Warning (SecretNotFound secret_name) ;;; ret JNull).

(** [assume_role]: the session is identified with the account it is scoped
    to; [None] is the failure result. *)
Definition assume_role (w : world) (account_id role_name : string) : M (option string) :=
  try_except
    (call_db (AssumeRole account_id role_name)
             (fun h => sts_assume_role w h account_id role_name) ;;;
     ret (Some account_id))
    any_exception
    (fun _ => log Error (AssumeRoleFailed account_id) ;;; ret None).

(** ** The central repository *)

(** [creds.get('username') or creds.get('user')], [creds.get('password')]:
    raises [AttributeError] unless [creds] is a dict. *)
Definition read_login (creds : json) : M unit :=
  if has_get creds then ret tt else raise AttributeError.

Definition get_central_connection (w : world) (creds : json) : M unit :=
  if negb (HAS_POSTGRES w) then raise MissingDriver
  else
    read_login creds ;;;
    call_db CentralConnect (fun h => central_connect w h creds).

Definition truncate_central_table (w : world) : M unit :=
  log Info CleaningUp ;;;
  try_except
    (call_db CentralTruncate (central_truncate w) ;;;
     call_db CentralCommit (central_commit w) ;;;
     log Info TableCleanedUp)
    any_exception
    (fun e =>
       log Error CleanupFailed ;;;
       call CentralRollback (fun _ => tt) ;;;
       raise e).

Definition save_batch_to_central (w : world) (data_rows : list row)
    (source_account source_db : string) : M nat :=
  match data_rows with
  | [] => ret 0
  | _ =>
    try_except
      (let params := build_params source_account source_db data_rows in
       call_db (CentralExecuteMany params)
               (fun h => central_executemany w h params) ;;;
       call_db CentralCommit (central_commit w) ;;;
       let count := length params in
       log Info (InsertedRecords count source_db) ;;;
       ret count)
      any_exception
      (fun e =>
         log Error SavingFailed ;;;
         call CentralRollback (fun _ => tt) ;;;
         raise e)
  end.

(** ** The source connectors *)

(** The [try] block shared by the two connectors: connect, run the query,
    fetch and map the rows, close, return. *)
Definition read_source (w : world) (k : engine_kind) (creds : json)
    (host : option string) (db_name query : string) : M (list row) :=
  call_db (SourceConnect k host db_name)
          (fun h => source_connect w h k creds host db_name) ;;;
  call_db (SourceExecute k query) (fun h => source_execute w h k query) ;;;
  results <~ call_value (SourceFetch k) (fun h => source_fetchall w h k) ;;
  call (SourceClose k) (fun _ => tt) ;;;
  ret results.

(** [execute_mssql_full]: the connection string is built before the [try]. *)
Definition execute_mssql_full (w : world) (creds : json) (host : option string)
    (db_name query : string) : M (list row) :=
  if negb (HAS_MSSQL w) then ret []
  else
    read_login creds ;;;
    try_except
      (read_source w Mssql creds host db_name query)
      any_exception
      (fun _ => log Error (SourceFailed Mssql) ;;; ret []).

(** [execute_postgres_full]: the credentials are read inside the [try]. *)
Definition execute_postgres_full (w : world) (creds : json) (host : option string)
    (db_name query : string) : M (list row) :=
  if negb (HAS_POSTGRES w) then ret []
  else
    try_except
      (read_login creds ;;;
       read_source w Postgres creds host db_name query)
      any_exception
      (fun _ => log Error (SourceFailed Postgres) ;;; ret []).

(** ** The handler *)

(** [sub in s] on strings. *)
Fixpoint str_in (sub s : string) : bool :=
  String.prefix sub s ||
  match s with
  | EmptyString => false
  | String _ s' => str_in sub s'
  end.

(** [f"{db_id}: {inserted} records loaded"]. *)
Definition report_line (db_id : string) (inserted : nat) : string :=
  db_id +:+ ": " +:+ NilZero.string_of_uint (Nat.to_uint inserted) +:+ " records loaded".

(** The two accumulators of [lambda_handler]. *)
Record totals := mk_totals {
  total_synced : nat;
  report : list string
}.

Inductive response_body :=
| NoCredentialsFound                 (* "Error: No main repository credentials found." *)
| FatalError (e : exn)               (* f"Fatal error on connecting/cleaning up: {e}" *)
| SuccessFullLoad (total_records : nat) (details : list string).

Record response := mk_response {
  statusCode : Z;
  body : response_body
}.

(** [db_id in BLACKLIST_RDS or db['DBInstanceStatus'] != 'available']. *)
Definition skipped (cfg : config) (db : db_instance) : bool :=
  bool_decide (DBInstanceIdentifier db ∈ BLACKLIST_RDS cfg)
  || negb (String.eqb (DBInstanceStatus db) "available").

(** [f"xxx/yyy/{acc_id}/{db_id}"]. *)
Definition instance_secret_name (acc_id db_id : string) : string :=
  "xxx/yyy/" +:+ acc_id +:+ "/" +:+ db_id.

(** The [if "sqlserver" in engine: ... elif "postgres" in engine: ...]
    dispatch, [full_data] starting as the empty list. *)
Definition fetch_full_data (w : world) (creds : json) (engine : string)
    (host : option string) : M (list row) :=
  if str_in "sqlserver" engine then
    execute_mssql_full w creds host SOURCE_DB_NAME query_all
  else if str_in "postgres" engine then
    execute_postgres_full w creds host SOURCE_DB_NAME query_all
  else ret [].

(** The [if full_data: ... else: ...] that ends the instance loop body. *)
Definition store_full_data (w : world) (acc_name db_id : string) (st : totals)
    (full_data : list row) : M totals :=
  match full_data with
  | [] => log Info NoDataFound ;;; ret st
  | _ =>
    log Info (FoundRecords (length full_data)) ;;;
    inserted <~ save_batch_to_central w full_data acc_name db_id ;;
    ret {| total_synced := total_synced st + inserted;
           report := report st ++ [report_line db_id inserted] |}
  end.

(** The body of [for db in dbs['DBInstances']]. *)
Definition process_instance (w : world) (cfg : config) (acc : account)
    (st : totals) (db : db_instance) : M totals :=
  let db_id := DBInstanceIdentifier db in
  let engine := Engine db in
  let host := Endpoint db in
  if skipped cfg db then ret st
  else
    log Info (LoadingFrom db_id engine) ;;;
    let secret_name := instance_secret_name (Id acc) db_id in
    creds <~ get_secret_local w secret_name ;;
    if negb (truthy creds) then
      log Warning (SkipNoSecret secret_name) ;;; ret st
    else
      full_data <~ fetch_full_data w creds engine host ;;
      store_full_data w (Name acc) db_id st full_data.

(** The listing of one account's instances, with its [try]/[except]. *)
Definition list_instances (w : world) (acc_id : string) : M (option (list db_instance)) :=
  try_except
    (dbs <~ call_value (DescribeDBInstances acc_id)
                       (fun h => describe_db_instances w h acc_id) ;;
     ret (Some dbs))
    any_exception
    (fun _ => log Error (ListingFailed acc_id) ;;; ret None).

(** The body of [for account in TARGET_ACCOUNTS]. *)
Definition process_account (w : world) (cfg : config) (st : totals)
    (acc : account) : M totals :=
  target_session <~ assume_role w (Id acc) ROLE_NAME ;;
  match target_session with
  | None => ret st
  | Some session =>
    listing <~ list_instances w session ;;
    match listing with
    | None => ret st
    | Some dbs => for_each (process_instance w cfg acc) dbs st
    end
  end.

(** Steps 1 and 2 of [lambda_handler]: the central credentials have been
    found; connect and truncate, turning any exception into the 500 body. *)
Definition prepare_central (w : world) (central_creds : json) : M (option response) :=
  try_except
    (get_central_connection w central_creds ;;;
     truncate_central_table w ;;;
     ret None)
    any_exception
    (fun e => ret (Some {| statusCode := 500; body := FatalError e |})).

Definition lambda_handler (w : world) (cfg : config) : M response :=
  log Info StartingLoad ;;;
  central_creds <~ get_secret_local w CENTRAL_REPO_SECRET_NAME ;;
  if negb (truthy central_creds) then
    ret {| statusCode := 500; body := NoCredentialsFound |}
  else
    fatal <~ prepare_central w central_creds ;;
    match fatal with
    | Some resp => ret resp
    | None =>
      st <~ for_each (process_account w cfg) (TARGET_ACCOUNTS cfg)
                     {| total_synced := 0; report := [] |} ;;
      call CentralClose (fun _ => tt) ;;;
      ret {| statusCode := 200;
             body := SuccessFullLoad (total_synced st) (report st) |}
    end.

(** A whole invocation, from the empty history. *)
Definition run (w : world) (cfg : config) : outcome response * trace :=
  lambda_handler w cfg [].

(** ** Vocabulary of the properties *)

(** *** Reading a report line back

    The count a report line shows: the digits that stand right before the
    closing [" records loaded"]. *)
Definition is_digit (c : ascii) : bool :=
  let n := nat_of_ascii c in (48 <=? n)%nat && (n <=? 57)%nat.

Fixpoint strip_prefix (p l : list ascii) : option (list ascii) :=
  match p, l with
  | [], _ => Some l
  | a :: p', b :: l' => if Ascii.eqb a b then strip_prefix p' l' else None
  | _ :: _, [] => None
  end.

Fixpoint leading_digits (l : list ascii) : list ascii :=
  match l with
  | c :: l' => if is_digit c then c :: leading_digits l' else []
  | [] => []
  end.

Definition reported_count (line : string) : option nat :=
  match strip_prefix (rev (list_ascii_of_string " records loaded"))
                     (rev (list_ascii_of_string line)) with
  | None => None
  | Some rest =>
    Nat.of_uint <$>
      NilZero.uint_of_string (string_of_list_ascii (rev (leading_digits rest)))
  end.

(** The sum of the counts a report shows, when every line shows one. *)
Fixpoint reported_total (details : list string) : option nat :=
  match details with
  | [] => Some 0%nat
  | line :: rest =>
    match reported_count line, reported_total rest with
    | Some n, Some m => Some (n + m)%nat
    | _, _ => None
    end
  end.

(** *** Column names up to letter case *)

(** Two characters that are equal, or the two cases of one ASCII letter. *)
Definition same_letter (a b : ascii) : Prop :=
  a = b
  ∨ (65 ≤ nat_of_ascii a ≤ 90 ∧ nat_of_ascii b = nat_of_ascii a + 32)%nat
  ∨ (65 ≤ nat_of_ascii b ≤ 90 ∧ nat_of_ascii a = nat_of_ascii b + 32)%nat.

Fixpoint case_variant (s1 s2 : string) : Prop :=
  match s1, s2 with
  | EmptyString, EmptyString => True
  | String a s1', String b s2' => same_letter a b ∧ case_variant s1' s2'
  | _, _ => False
  end.

(** Two rows that differ only in the letter case of their keys: the same
    values, in the same order, under keys that are case variants. *)
Definition rows_differ_in_case_only (r1 r2 : row) : Prop :=
  Forall2 (fun x y => case_variant x.1 y.1 ∧ x.2 = y.2) r1 r2.

(** *** What a row holds under an upper-cased name *)

(** The last entry of the row whose upper-cased key is [K], if any. *)
Definition last_match (r : row) (K : string) : option pyval :=
  last (omap (fun kv => if decide (upper kv.1 = K) then Some kv.2 else None) r).

(** Its value, or [None] when there is no such entry. *)
Definition column_value (r : row) (K : string) : pyval :=
  default PNone (last_match r K).

(** The dictionary comprehension, started from any dictionary. *)
Definition upper_into (m : gmap string pyval) (r : row) : gmap string pyval :=
  fold_left (fun acc kv => <[upper kv.1 := kv.2]> acc) r m.

(** The entries of a row that feed some column of the consolidated table. *)
Definition mapped_columns (r : row) : row :=
  filter (fun kv => upper kv.1 ∈ code_fields) r.

(** The canonical field names as the specification spells them, in the order
    of the value columns of the consolidated record. *)
Definition spec_fields : list string :=
  ["ID"; "DESCRIPTION"; "STATUS"; "UPDATE_DATE"; "INSTALL_DATE"].

(** The value a consolidated record holds for the canonical field [f] of the
    specification. *)
Definition spec_field_value (c : consolidated) (f : string) : option pyval :=
  match list_find (eq f) spec_fields with
  | Some (i, _) => record_values c !! i
  | None => None
  end.

(** *** Classes of events *)

Definition is_truncate (e : event) : bool :=
  match e with CentralTruncate => true | _ => false end.

Definition is_write (e : event) : bool :=
  match e with CentralExecuteMany _ => true | _ => false end.

(** What the tenant loop can do: everything except opening, truncating and
    closing the central repository. *)
Definition tenant_event (e : event) : bool :=
  match e with
  | CentralConnect | CentralTruncate | CentralClose => false
  | _ => true
  end.

(** What happens on behalf of tenants: role assumption, discovery, secret
    lookups other than the central one, source connections, writes. *)
Definition tenant_work (e : event) : bool :=
  match e with
  | GetSecretValue n => negb (String.eqb n CENTRAL_REPO_SECRET_NAME)
  | AssumeRole _ _ | DescribeDBInstances _ => true
  | SourceConnect _ _ _ | SourceExecute _ _ | SourceFetch _ | SourceClose _ => true
  | CentralExecuteMany _ => true
  | _ => false
  end.

Definition truncations (t : trace) : nat := length (filter is_truncate t).

(** The run found central credentials ([if not central_creds] is false). *)
Definition past_credentials (w : world) : bool :=
  match get_secret_local w CENTRAL_REPO_SECRET_NAME [Log Info StartingLoad] with
  | (Ret creds, _) => truthy creds
  | (Raise _, _) => false
  end.

(** The run found central credentials and opened the central connection. *)
Definition central_opened (w : world) : bool :=
  match get_secret_local w CENTRAL_REPO_SECRET_NAME [Log Info StartingLoad] with
  | (Ret creds, t) =>
    truthy creds &&
    match get_central_connection w creds t with
    | (Ret _, _) => true
    | (Raise _, _) => false
    end
  | (Raise _, _) => false
  end.

(** The run found central credentials, opened the central connection and
    truncated the table: nothing failed before the tenant loop. *)
Definition central_ready (w : world) : bool :=
  match get_secret_local w CENTRAL_REPO_SECRET_NAME [Log Info StartingLoad] with
  | (Ret creds, t) =>
    truthy creds &&
    match (get_central_connection w creds ;;; truncate_central_table w) t with
    | (Ret _, _) => true
    | (Raise _, _) => false
    end
  | (Raise _, _) => false
  end.

(** Central credential resolution, central connection or truncation failed. *)
Definition central_setup_fails (w : world) : Prop := central_ready w = false.

(** The response is the success result. *)
Definition is_success (o : outcome response) : Prop :=
  exists r, o = Ret r ∧ statusCode r = 200%Z.

(** The response is a fatal result. *)
Definition is_fatal (o : outcome response) : Prop :=
  exists r, o = Ret r ∧ statusCode r = 500%Z.

(** [m] only extends the history, and only by events of class [P]. *)
Definition emits {A} (P : event -> bool) (m : M A) : Prop :=
  forall t, exists d, (m t).2 = t ++ d ∧ Forall (fun e => P e = true) d.

(** Whatever [m] returns satisfies [Q]. *)
Definition returns {A} (Q : A -> Prop) (m : M A) : Prop :=
  forall t a t', m t = (Ret a, t') -> Q a.

(** The secrets a run asked for, in order. *)
Definition secret_lookups (t : trace) : list string :=
  omap (fun e => match e with GetSecretValue n => Some n | _ => None end) t.

(** Neither a TRUNCATE nor a batch write. *)
Definition quiet_event (e : event) : bool :=
  negb (is_truncate e) && negb (is_write e).

(** The accumulators agree: the counts the report shows add up to the total. *)
Definition report_agrees (st : totals) : Prop :=
  reported_total (report st) = Some (total_synced st).

(** *** Classes of events, continued *)

(** [m] only extends the history, and only by events that satisfy [P]. *)
Definition appends {A} (P : event -> Prop) (m : M A) : Prop :=
  forall t, exists d, (m t).2 = t ++ d ∧ Forall P d.

(** What the secret resolver and the source connectors can do: look a
    secret up, talk to a source database, log. *)
Definition reader_event (e : event) : bool :=
  match e with
  | GetSecretValue _ | Log _ _ => true
  | SourceConnect _ _ _ | SourceExecute _ _ | SourceFetch _ | SourceClose _ => true
  | _ => false
  end.

(** What the body of the instance loop can do: what a reader does, and a
    batch write with its commit or rollback. *)
Definition instance_event (e : event) : bool :=
  match e with
  | CentralExecuteMany _ | CentralCommit | CentralRollback => true
  | _ => reader_event e
  end.

(** What happens before the tenant loop. *)
Definition setup_event (e : event) : bool :=
  match e with
  | GetSecretValue _ | Log _ _ => true
  | CentralConnect | CentralTruncate | CentralCommit | CentralRollback => true
  | _ => false
  end.

Definition is_close (e : event) : bool :=
  match e with CentralClose => true | _ => false end.

Definition is_assume (e : event) : bool :=
  match e with AssumeRole _ _ => true | _ => false end.

(** The accounts whose role was assumed, with the role, in order. *)
Definition assumed_roles (t : trace) : list (string * string) :=
  omap (fun e => match e with AssumeRole a r => Some (a, r) | _ => None end) t.

(** The number of records handed to [executemany] over a history. *)
Definition records_written (t : trace) : nat :=
  sum_list (omap (fun e => match e with
                           | CentralExecuteMany params => Some (length params)
                           | _ => None
                           end) t).

(** The report lines that the batch writes of a history stand for: one line
    per write, with the instance the records are tagged with and their
    number. *)
Definition report_of_writes (t : trace) : list string :=
  omap (fun e => match e with
                 | CentralExecuteMany (c :: params) =>
                   Some (report_line (SourceDB c) (S (length params)))
                 | _ => None
                 end) t.

(** The only calls a run makes: the central secret or the secret of an
    instance that is not on the denylist, in a configured account; the fixed
    role in a configured account; the fixed query on the fixed database;
    non-empty batches tagged with the name of a configured account and with
    one instance that is not on the denylist. *)
Definition sanctioned (cfg : config) (e : event) : Prop :=
  match e with
  | GetSecretValue n =>
    n = CENTRAL_REPO_SECRET_NAME
    ∨ (exists acc db_id,
          acc ∈ TARGET_ACCOUNTS cfg ∧ (db_id ∉ BLACKLIST_RDS cfg)
          ∧ n = instance_secret_name (Id acc) db_id)
  | AssumeRole a r => r = ROLE_NAME ∧ exists acc, acc ∈ TARGET_ACCOUNTS cfg ∧ a = Id acc
  | DescribeDBInstances a => exists acc, acc ∈ TARGET_ACCOUNTS cfg ∧ a = Id acc
  | SourceConnect _ _ db_name => db_name = SOURCE_DB_NAME
  | SourceExecute _ query => query = query_all
  | CentralExecuteMany params =>
    params ≠ []
    ∧ (exists acc db_id,
          acc ∈ TARGET_ACCOUNTS cfg ∧ (db_id ∉ BLACKLIST_RDS cfg)
          ∧ Forall (fun c => SourceAccount c = Name acc ∧ SourceDB c = db_id) params)
  | _ => True
  end.

(** The totals account for the writes of the history: one report line per
    write, and the total is the number of records written. *)
Definition totals_match (st : totals) (t : trace) : Prop :=
  report st = report_of_writes t ∧ total_synced st = records_written t.



(** [sub] occurs in [s]. *)
Definition occurs_in (sub s : string) : Prop :=
  exists before after, s = before +:+ sub +:+ after.

(** ** Sample worlds

    Concrete collaborators on which the statements below are exercised.  A
    scripted world answers every call the same way, whatever the history. *)

Definition login : json := JObj [("username", "audit"); ("password", "s3cret")].

Definition three_rows : list row :=
  [ [("id", PInt 1); ("status", PStr "ok")];
    [("Id", PInt 2); ("note", PStr "dropped")];
    [("ID", PInt 3)] ].

Definition orders_db : db_instance :=
  mk_db "orders" "postgres" (Some "orders.example") "available".

Definition billing_db : db_instance :=
  mk_db "billing" "sqlserver-ee" (Some "billing.example") "available".

Definition stopped_db : db_instance :=
  mk_db "archive" "postgres" None "stopped".

Definition scripted_world (driver : bool) (secret : string -> secret_reply)
    (dbs : list db_instance) (query connect truncate insert : option exn) : world :=
  {| HAS_POSTGRES := driver;
     HAS_MSSQL := true;
     get_secret_value := fun _ name => secret name;
     sts_assume_role := fun _ _ _ => None;
     describe_db_instances := fun _ _ => Ret dbs;
     source_connect := fun _ _ _ _ _ => None;
     source_execute := fun _ _ _ => query;
     source_fetchall := fun _ _ => Ret three_rows;
     central_connect := fun _ _ => connect;
     central_truncate := fun _ => truncate;
     central_executemany := fun _ _ => insert;
     central_commit := fun _ => None |}.

Definition every_secret (s : secret_reply) : string -> secret_reply := fun _ => s.

Definition good_secret : string -> secret_reply :=
  every_secret (SecretValue (Some (Parses login))).

(** Everything answers; one account with the two databases. *)
Definition calm_world : world :=
  scripted_world true good_secret [orders_db; billing_db] None None None None.

(** The central INSERT fails. *)
Definition insert_fails_world : world :=
  scripted_world true good_secret [orders_db; billing_db] None None None (Some DriverError).

(** The source query fails after the connection is open. *)
Definition query_fails_world : world :=
  scripted_world true good_secret [orders_db] (Some DriverError) None None None.

(** Every SecretString is malformed JSON. *)
Definition malformed_secret_world : world :=
  scripted_world true (every_secret (SecretValue (Some Malformed)))
    [orders_db] None None None None.

(** The secret store answers every lookup with a [ClientError]. *)
Definition no_secret_world : world :=
  scripted_world true (every_secret (SecretRaises ClientError))
    [orders_db] None None None None.

(** Only the central secret exists. *)
Definition central_secret_only : string -> secret_reply :=
  fun name =>
    if String.eqb name CENTRAL_REPO_SECRET_NAME
    then SecretValue (Some (Parses login))
    else SecretRaises ClientError.

Definition not_onboarded_world : world :=
  scripted_world true central_secret_only [orders_db] None None None None.

(** The only instance discovered is stopped. *)
Definition stopped_world : world :=
  scripted_world true good_secret [stopped_db] None None None None.

(** The central repository refuses the connection. *)
Definition unreachable_central_world : world :=
  scripted_world true good_secret [orders_db] None (Some DriverError) None None.

(** TRUNCATE is refused. *)
Definition truncate_fails_world : world :=
  scripted_world true good_secret [orders_db] None None (Some DriverError) None.

Definition one_account : config :=
  {| TARGET_ACCOUNTS := [mk_account "111122223333" "Tenant One"];
     BLACKLIST_RDS := ["db-1"; "db-2"; "db-3"] |}.

(** Worlds that differ from another one in a single collaborator. *)
Definition with_drivers (w : world) (postgres mssql : bool) : world :=
  {| HAS_POSTGRES := postgres;
     HAS_MSSQL := mssql;
     get_secret_value := get_secret_value w;
     sts_assume_role := sts_assume_role w;
     describe_db_instances := describe_db_instances w;
     source_connect := source_connect w;
     source_execute := source_execute w;
     source_fetchall := source_fetchall w;
     central_connect := central_connect w;
     central_truncate := central_truncate w;
     central_executemany := central_executemany w;
     central_commit := central_commit w |}.

Definition with_sts (w : world) (sts : trace -> string -> string -> option exn) : world :=
  {| HAS_POSTGRES := HAS_POSTGRES w;
     HAS_MSSQL := HAS_MSSQL w;
     get_secret_value := get_secret_value w;
     sts_assume_role := sts;
     describe_db_instances := describe_db_instances w;
     source_connect := source_connect w;
     source_execute := source_execute w;
     source_fetchall := source_fetchall w;
     central_connect := central_connect w;
     central_truncate := central_truncate w;
     central_executemany := central_executemany w;
     central_commit := central_commit w |}.

Definition with_discovery (w : world)
    (rds : trace -> string -> outcome (list db_instance)) : world :=
  {| HAS_POSTGRES := HAS_POSTGRES w;
     HAS_MSSQL := HAS_MSSQL w;
     get_secret_value := get_secret_value w;
     sts_assume_role := sts_assume_role w;
     describe_db_instances := rds;
     source_connect := source_connect w;
     source_execute := source_execute w;
     source_fetchall := source_fetchall w;
     central_connect := central_connect w;
     central_truncate := central_truncate w;
     central_executemany := central_executemany w;
     central_commit := central_commit w |}.

(** The SQL Server driver could not be imported. *)
Definition no_mssql_world : world := with_drivers calm_world true false.

(** Neither driver could be imported. *)
Definition no_driver_world : world := with_drivers calm_world false false.

(** The role cannot be assumed in any account. *)
Definition no_trust_world : world :=
  with_sts calm_world (fun _ _ _ => Some ClientError).

(** The instances cannot be listed in any account. *)
Definition throttled_world : world :=
  with_discovery calm_world (fun _ _ => Raise ClientError).

(** Every secret is the empty JSON object. *)
Definition empty_secret_world : world :=
  scripted_world true (every_secret (SecretValue (Some (Parses (JObj [])))))
    [orders_db] None None None None.

(** The secrets hold a JSON string, not an object. *)
Definition string_secret_world : world :=
  scripted_world true (every_secret (SecretValue (Some (Parses (JStr "audit:s3cret")))))
    [orders_db; billing_db] None None None None.

Definition tenant_one : account := mk_account "111122223333" "Tenant One".

Definition two_accounts : config :=
  {| TARGET_ACCOUNTS := [tenant_one; mk_account "444455556666" "Tenant Two"];
     BLACKLIST_RDS := ["billing"] |}.

(** ** Checks on concrete inputs *)

Example upper_mixed : upper "Install_Date9" = "INSTALL_DATE9".
Proof. reflexivity. Qed.

Example to_params_sample :
  to_params "acc" "db" [("id", PInt 7); ("Status", PStr "ok"); ("extra", PInt 1)]
  = mk_consolidated "acc" "db" (PInt 7) PNone (PStr "ok") PNone PNone.
Proof. vm_compute. reflexivity. Qed.

Example str_in_aurora : str_in "postgres" "aurora-postgresql" = true.
Proof. reflexivity. Qed.

Example str_in_mysql :
  str_in "postgres" "mysql" = false ∧ str_in "sqlserver" "oracle-ee" = false.
Proof. split; reflexivity. Qed.

Example report_line_three : report_line "orders" 3 = "orders: 3 records loaded".
Proof. reflexivity. Qed.

Example reported_count_three : reported_count "orders: 3 records loaded" = Some 3.
Proof. vm_compute. reflexivity. Qed.

(** One eligible instance with three rows: one report line, total 3. *)
Example one_instance_three_rows :
  (run (scripted_world true good_secret [orders_db] None None None None)
       shipped_config).1
  = Ret {| statusCode := 200;
           body := SuccessFullLoad 3 ["orders: 3 records loaded"] |}.
Proof. vm_compute. reflexivity. Qed.

(** A stopped instance: nothing is looked up, connected to or written. *)
Example stopped_instance_run :
  run stopped_world one_account
  = (Ret {| statusCode := 200; body := SuccessFullLoad 0 [] |},
     [Log Info StartingLoad; GetSecretValue CENTRAL_REPO_SECRET_NAME;
      CentralConnect; Log Info CleaningUp; CentralTruncate; CentralCommit;
      Log Info TableCleanedUp; AssumeRole "111122223333" ROLE_NAME;
      DescribeDBInstances "111122223333"; CentralClose]).
Proof. vm_compute. reflexivity. Qed.

(** No secret for an eligible instance: it is skipped and the run goes on. *)
Example not_onboarded_run :
  (run not_onboarded_world one_account).1
  = Ret {| statusCode := 200; body := SuccessFullLoad 0 [] |}
  ∧ secret_lookups (run not_onboarded_world one_account).2
    = [CENTRAL_REPO_SECRET_NAME; instance_secret_name "111122223333" "orders"].
Proof. vm_compute. split; reflexivity. Qed.

(** No central secret: the 500 response, at once. *)
Example no_central_secret_run :
  run no_secret_world one_account
  = (Ret {| statusCode := 500; body := NoCredentialsFound |},
     [Log Info StartingLoad; GetSecretValue CENTRAL_REPO_SECRET_NAME;
      Log Warning (SecretNotFound CENTRAL_REPO_SECRET_NAME)]).
Proof. vm_compute. reflexivity. Qed.

(** TRUNCATE refused: the 500 response, and no tenant is processed. *)
Example truncate_refused_run :
  run truncate_fails_world one_account
  = (Ret {| statusCode := 500; body := FatalError DriverError |},
     [Log Info StartingLoad; GetSecretValue CENTRAL_REPO_SECRET_NAME;
      CentralConnect; Log Info CleaningUp; CentralTruncate;
      Log Error CleanupFailed; CentralRollback]).
Proof. vm_compute. reflexivity. Qed.

Example calm_run_result :
  (run calm_world one_account).1
  = Ret {| statusCode := 200;
           body := SuccessFullLoad 6 ["orders: 3 records loaded";
                                      "billing: 3 records loaded"] |}.
Proof. vm_compute. reflexivity. Qed.

(** ** The central writer's mapping of rows *)

Section RowMapping.

Implicit Types (r : row) (m : gmap string pyval) (K : string).

Lemma upper_same_letter (a b : ascii) :
  same_letter a b -> upper_ascii a = upper_ascii b.
Proof.
  assert (Hup : forall x y : ascii,
             (65 ≤ nat_of_ascii x ≤ 90)%nat ->
             nat_of_ascii y = (nat_of_ascii x + 32)%nat ->
             upper_ascii x = upper_ascii y).
  { intros x y Hx Hy. unfold upper_ascii. rewrite Hy.
    destruct (Nat.leb_spec 97 (nat_of_ascii x)); [lia|].
    destruct (Nat.leb_spec 97 (nat_of_ascii x + 32)); [|lia].
    destruct (Nat.leb_spec (nat_of_ascii x + 32) 122); [|lia].
    simpl. replace (nat_of_ascii x + 32 - 32)%nat with (nat_of_ascii x) by lia.
    by rewrite ascii_nat_embedding. }
  intros [->|[[Ha Hb]|[Hb Ha]]]; [done|by apply Hup|symmetry; by apply Hup].
Qed.

Lemma upper_case_variant (s1 s2 : string) :
  case_variant s1 s2 -> upper s1 = upper s2.
Proof.
  revert s2. induction s1 as [|a s1 IH]; intros [|b s2]; simpl; try done.
  intros [Hab Hs]. f_equal; [by apply upper_same_letter|by apply IH].
Qed.

Lemma upper_into_case_only r1 r2 m :
  rows_differ_in_case_only r1 r2 -> upper_into m r1 = upper_into m r2.
Proof.
  intros H. revert m. induction H as [|[k1 v1] [k2 v2] r1 r2 [Hk Hv] _ IH];
    intros m; simpl in *; [done|].
  subst v2. rewrite (upper_case_variant _ _ Hk). apply IH.
Qed.

Lemma upper_into_lookup r m K :
  upper_into m r !! K =
    match last_match r K with
    | Some v => Some v
    | None => m !! K
    end.
Proof.
  unfold last_match. revert m. induction r as [|[k v] r IH]; intros m; simpl; [done|].
  fold (upper_into (<[upper k:=v]> m) r). rewrite IH.
  destruct (decide (upper k = K)) as [->|Hne]; simpl.
  - rewrite last_cons. destruct (last _); [done|]. by rewrite lookup_insert_eq.
  - destruct (last _); [done|]. by rewrite lookup_insert_ne.
Qed.

Lemma dict_get_row_upper r K : dict_get (row_upper r) K = column_value r K.
Proof.
  unfold dict_get, column_value, row_upper.
  fold (upper_into ∅ r). rewrite upper_into_lookup.
  destruct (last_match r K); [done|]. by rewrite lookup_empty.
Qed.

Lemma column_value_mapped r K :
  K ∈ code_fields -> column_value (mapped_columns r) K = column_value r K.
Proof.
  intros HK. unfold column_value, last_match, mapped_columns.
  assert (omap (fun kv : string * pyval =>
                  if decide (upper kv.1 = K) then Some kv.2 else None)
               (filter (fun kv : string * pyval => upper kv.1 ∈ code_fields) r)
          = omap (fun kv : string * pyval =>
                  if decide (upper kv.1 = K) then Some kv.2 else None) r) as ->; [|done].
  induction r as [|[k v] r IH]; [done|].
  rewrite filter_cons. cbn [fst snd].
  destruct (decide (upper k ∈ code_fields)) as [Hin|Hout]; cbn [omap list_omap fst snd].
  - by rewrite IH.
  - rewrite IH. destruct (decide (upper k = K)) as [Heq|]; [|done].
    exfalso. apply Hout. by rewrite Heq.
Qed.

Lemma column_value_absent r K :
  (forall kv, kv ∈ r -> upper kv.1 ≠ K) -> column_value r K = PNone.
Proof.
  intros H. unfold column_value, last_match.
  replace (omap _ r) with (@nil pyval); [done|].
  induction r as [|kv r IH]; [done|]. simpl.
  destruct (decide (upper kv.1 = K)) as [Heq|_].
  - exfalso. eapply H; [|exact Heq]. by left.
  - apply IH. intros kv' Hin. apply H. by right.
Qed.

End RowMapping.

(** C2 (amended).  For every snapshot row the central writer upper-cases the
    keys and reads the five keys ID, DESCRIPTION, STATUS, UDATE and
    INSTALLDATE: each value column of the consolidated record holds the
    value of the last entry of the row whose upper-cased key is the column's
    key; the entries under any other key are dropped (removing them changes
    nothing); and a column no entry matches is written as None.  The two
    leading columns are the account name and the instance identifier. *)
Theorem writer_maps_code_fields (source_account source_db : string) (r : row) :
  SourceAccount (to_params source_account source_db r) = source_account
  ∧ SourceDB (to_params source_account source_db r) = source_db
  ∧ record_values (to_params source_account source_db r)
    = map (column_value r) code_fields
  ∧ to_params source_account source_db (mapped_columns r)
    = to_params source_account source_db r
  ∧ (forall K, (forall kv, kv ∈ r -> upper kv.1 ≠ K) -> column_value r K = PNone).
Proof.
  split; [done|]. split; [done|]. split; [|split].
  - unfold to_params, record_values, code_fields. simpl.
    by rewrite !dict_get_row_upper.
  - unfold to_params. rewrite !dict_get_row_upper.
    rewrite !column_value_mapped; [done|unfold code_fields; set_solver..].
  - apply column_value_absent.
Qed.

(** C2 (as stated, refuted).  A column named [update_date] normalises to the
    canonical field UPDATE_DATE of the specification, yet its value does not
    reach the record: the writer reads the key UDATE. *)
Lemma writer_ignores_update_date :
  ¬ (forall (source_account source_db : string) (r : row) (k f : string) (v : pyval),
        (k, v) ∈ r -> f ∈ spec_fields -> upper k = f ->
        spec_field_value (to_params source_account source_db r) f = Some v).
Proof.
  intros H.
  specialize (H "acc" "db" [("update_date", PStr "2024-05-01")]
                "update_date" "UPDATE_DATE" (PStr "2024-05-01")).
  assert (Hv : spec_field_value
                 (to_params "acc" "db" [("update_date", PStr "2024-05-01")])
                 "UPDATE_DATE" = Some PNone) by (vm_compute; reflexivity).
  rewrite Hv in H.
  discriminate H; [set_solver|unfold spec_fields; set_solver|reflexivity].
Qed.

(** C9.  Two rows that differ only in the letter case of their column keys
    are mapped by the central writer to the same consolidated record. *)
Theorem key_case_is_irrelevant (source_account source_db : string) (r1 r2 : row) :
  rows_differ_in_case_only r1 r2 ->
  to_params source_account source_db r1 = to_params source_account source_db r2.
Proof.
  intros H. unfold to_params, row_upper.
  change (fold_left _ r1 ∅) with (upper_into ∅ r1).
  change (fold_left _ r2 ∅) with (upper_into ∅ r2).
  by rewrite (upper_into_case_only r1 r2 ∅ H).
Qed.

Lemma key_case_is_irrelevant_witness :
  rows_differ_in_case_only [("id", PInt 7); ("Status", PStr "ok")]
                           [("ID", PInt 7); ("sTATUS", PStr "ok")]
  ∧ to_params "acc" "db" [("id", PInt 7); ("Status", PStr "ok")]
    = to_params "acc" "db" [("ID", PInt 7); ("sTATUS", PStr "ok")].
Proof.
  assert (H : rows_differ_in_case_only [("id", PInt 7); ("Status", PStr "ok")]
                                       [("ID", PInt 7); ("sTATUS", PStr "ok")]).
  { unfold rows_differ_in_case_only.
    constructor; [|constructor; [|constructor]];
      (split; [|reflexivity]); simpl; repeat split;
      first [ left; reflexivity
            | right; left; vm_compute; lia
            | right; right; vm_compute; lia ]. }
  split; [exact H|].
  exact (key_case_is_irrelevant "acc" "db" _ _ H).
Defined.

(** ** What a computation adds to the history *)

Section Emits.

Variable P : event -> bool.

Lemma emits_ret {A} (a : A) : emits P (ret a).
Proof. intros t. exists []. by rewrite app_nil_r. Qed.

Lemma emits_raise {A} (e : exn) : emits P (@raise A e).
Proof. intros t. exists []. by rewrite app_nil_r. Qed.

Lemma emits_call {B} (e : event) (answer : trace -> B) :
  P e = true -> emits P (call e answer).
Proof. intros He t. exists [e]. split; [done|]. by constructor. Qed.

Lemma emits_log lvl msg : P (Log lvl msg) = true -> emits P (log lvl msg).
Proof. intros He t. exists [Log lvl msg]. split; [done|]. by constructor. Qed.

Lemma emits_bind {A B} (m : M A) (k : A -> M B) :
  emits P m -> (forall a, emits P (k a)) -> emits P (bind m k).
Proof.
  intros Hm Hk t. unfold bind. destruct (Hm t) as (d & Hd & HP).
  destruct (m t) as [[a|e] t']; simpl in Hd; subst t'.
  - destruct (Hk a (t ++ d)) as (d' & Hd' & HP'). exists (d ++ d').
    rewrite Hd', app_assoc. split; [done|]. by apply Forall_app.
  - by exists d.
Qed.

Lemma emits_try_except {A} (m : M A) (handles : exn -> bool) (h : exn -> M A) :
  emits P m -> (forall e, emits P (h e)) -> emits P (try_except m handles h).
Proof.
  intros Hm Hh t. unfold try_except. destruct (Hm t) as (d & Hd & HP).
  destruct (m t) as [[a|e] t']; simpl in Hd; subst t'.
  - by exists d.
  - destruct (handles e); [|by exists d].
    destruct (Hh e (t ++ d)) as (d' & Hd' & HP'). exists (d ++ d').
    rewrite Hd', app_assoc. split; [done|]. by apply Forall_app.
Qed.

Lemma emits_call_db (e : event) (answer : trace -> option exn) :
  P e = true -> emits P (call_db e answer).
Proof.
  intros He. apply emits_bind; [by apply emits_call|].
  intros [err|]; [apply emits_raise|apply emits_ret].
Qed.

Lemma emits_call_value {B} (e : event) (answer : trace -> outcome B) :
  P e = true -> emits P (call_value e answer).
Proof.
  intros He. apply emits_bind; [by apply emits_call|].
  intros [b|err]; [apply emits_ret|apply emits_raise].
Qed.

Lemma emits_for_each {A S} (body : S -> A -> M S) (l : list A) :
  (forall s x, emits P (body s x)) -> forall s, emits P (for_each body l s).
Proof.
  intros Hbody. induction l as [|x l IH]; intros s; simpl.
  - apply emits_ret.
  - apply emits_bind; [apply Hbody|apply IH].
Qed.

End Emits.

(** Breaks a computation into its calls; the side conditions [P e = true]
    are closed by evaluation. *)
Ltac emits_step :=
  lazymatch goal with
  | |- emits _ (ret _) => apply emits_ret
  | |- emits _ (raise _) => apply emits_raise
  | |- emits _ (log _ _) => apply emits_log; reflexivity
  | |- emits _ (call _ _) => apply emits_call; reflexivity
  | |- emits _ (call_db _ _) => apply emits_call_db; reflexivity
  | |- emits _ (call_value _ _) => apply emits_call_value; reflexivity
  | |- emits _ (bind _ _) => apply emits_bind; [|intros ?]
  | |- emits _ (try_except _ _ _) => apply emits_try_except; [|intros ?]
  end.

Ltac emits_all := repeat emits_step.

(** ** The tenant loop never touches the central connection or the table *)

Section TenantLoop.

Variable w : world.

Lemma get_secret_local_tenant name : emits tenant_event (get_secret_local w name).
Proof.
  unfold get_secret_local. emits_all.
  destruct a as [e|[[|j]|]]; unfold json_loads; emits_all.
Qed.

Lemma read_login_tenant creds : emits tenant_event (read_login creds).
Proof. unfold read_login. destruct (has_get creds); emits_all. Qed.

Lemma read_source_tenant k creds host db_name query :
  emits tenant_event (read_source w k creds host db_name query).
Proof. unfold read_source. emits_all. Qed.

Lemma fetch_full_data_tenant creds engine host :
  emits tenant_event (fetch_full_data w creds engine host).
Proof.
  unfold fetch_full_data, execute_mssql_full, execute_postgres_full.
  repeat case_match; emits_all;
    first [apply read_login_tenant | apply read_source_tenant ].
Qed.

Lemma save_batch_tenant rows acc_name db_id :
  emits tenant_event (save_batch_to_central w rows acc_name db_id).
Proof. unfold save_batch_to_central. destruct rows; emits_all. Qed.

Lemma store_full_data_tenant acc_name db_id st rows :
  emits tenant_event (store_full_data w acc_name db_id st rows).
Proof.
  unfold store_full_data. destruct rows; emits_all. apply save_batch_tenant.
Qed.

Lemma process_instance_tenant cfg acc st db :
  emits tenant_event (process_instance w cfg acc st db).
Proof.
  unfold process_instance. destruct (skipped cfg db); emits_all;
    [apply get_secret_local_tenant|].
  case_match; emits_all;
    [apply fetch_full_data_tenant|apply store_full_data_tenant].
Qed.

Lemma process_account_tenant cfg st acc :
  emits tenant_event (process_account w cfg st acc).
Proof.
  unfold process_account, assume_role, list_instances. emits_all.
  case_match; emits_all. case_match; emits_all.
  apply emits_for_each. intros ? ?. apply process_instance_tenant.
Qed.

Lemma tenant_loop_tenant cfg st :
  emits tenant_event (for_each (process_account w cfg) (TARGET_ACCOUNTS cfg) st).
Proof. apply emits_for_each. intros ? ?. apply process_account_tenant. Qed.

End TenantLoop.

(** ** The steps before the tenant loop, call by call *)

Section Setup.

Variable w : world.

Lemma get_secret_local_eq name t :
  get_secret_local w name t =
    match get_secret_value w t name with
    | SecretRaises e =>
      if client_error e
      then (Ret JNull, t ++ [GetSecretValue name; Log Warning (SecretNotFound name)])
      else (Raise e, t ++ [GetSecretValue name])
    | SecretValue None => (Ret JNull, t ++ [GetSecretValue name])
    | SecretValue (Some Malformed) => (Raise JSONDecodeError, t ++ [GetSecretValue name])
    | SecretValue (Some (Parses j)) => (Ret j, t ++ [GetSecretValue name])
    end.
Proof.
  unfold get_secret_local, try_except, bind, call, log, ret, raise. simpl.
  destruct (get_secret_value w t name) as [e|[[|j]|]]; simpl; try done.
  destruct e; simpl; try done; by rewrite <- app_assoc.
Qed.

Lemma get_central_connection_eq creds t :
  get_central_connection w creds t =
    if negb (HAS_POSTGRES w) then (Raise MissingDriver, t)
    else if has_get creds then
      match central_connect w t creds with
      | None => (Ret tt, t ++ [CentralConnect])
      | Some e => (Raise e, t ++ [CentralConnect])
      end
    else (Raise AttributeError, t).
Proof.
  unfold get_central_connection, read_login, call_db, bind, call, ret, raise.
  destruct (HAS_POSTGRES w); simpl; [|done].
  destruct (has_get creds); simpl; [|done].
  by destruct (central_connect w t creds).
Qed.

Lemma truncate_central_table_eq t :
  truncate_central_table w t =
    match central_truncate w (t ++ [Log Info CleaningUp]) with
    | Some e =>
      (Raise e, t ++ [Log Info CleaningUp; CentralTruncate;
                      Log Error CleanupFailed; CentralRollback])
    | None =>
      match central_commit w (t ++ [Log Info CleaningUp; CentralTruncate]) with
      | Some e =>
        (Raise e, t ++ [Log Info CleaningUp; CentralTruncate; CentralCommit;
                        Log Error CleanupFailed; CentralRollback])
      | None =>
        (Ret tt, t ++ [Log Info CleaningUp; CentralTruncate; CentralCommit;
                       Log Info TableCleanedUp])
      end
    end.
Proof.
  unfold truncate_central_table, try_except, call_db, bind, call, log, ret, raise.
  simpl. rewrite <- !app_assoc. simpl.
  destruct (central_truncate w _) as [e|]; simpl.
  - by rewrite <- !app_assoc.
  - rewrite <- !app_assoc. simpl.
    destruct (central_commit w _) as [e|]; simpl; by rewrite <- !app_assoc.
Qed.

End Setup.

(** ** The shape of a run *)

Section RunShape.

Variables (w : world) (cfg : config).

(** [lambda_handler], one collaborator at a time. *)
Lemma run_eq :
  run w cfg =
    match get_secret_local w CENTRAL_REPO_SECRET_NAME [Log Info StartingLoad] with
    | (Raise e, t0) => (Raise e, t0)
    | (Ret central_creds, t0) =>
      if truthy central_creds then
        match get_central_connection w central_creds t0 with
        | (Raise e, t1) => (Ret {| statusCode := 500; body := FatalError e |}, t1)
        | (Ret _, t1) =>
          match truncate_central_table w t1 with
          | (Raise e, t2) => (Ret {| statusCode := 500; body := FatalError e |}, t2)
          | (Ret _, t2) =>
            match for_each (process_account w cfg) (TARGET_ACCOUNTS cfg)
                           {| total_synced := 0; report := [] |} t2 with
            | (Raise e, t3) => (Raise e, t3)
            | (Ret st, t3) =>
              (Ret {| statusCode := 200;
                      body := SuccessFullLoad (total_synced st) (report st) |},
               t3 ++ [CentralClose])
            end
          end
        end
      else (Ret {| statusCode := 500; body := NoCredentialsFound |}, t0)
    end.
Proof.
  unfold run, lambda_handler, prepare_central.
  unfold bind at 1. simpl. unfold bind at 1.
  destruct (get_secret_local w CENTRAL_REPO_SECRET_NAME [Log Info StartingLoad])
    as [[creds|e] t0]; [|done].
  destruct (truthy creds); simpl; [|done].
  unfold bind at 1. unfold try_except. unfold bind at 1.
  destruct (get_central_connection w creds t0) as [[[]|e] t1]; simpl; [|done].
  unfold bind at 1.
  destruct (truncate_central_table w t1) as [[[]|e] t2]; simpl; [|done].
  unfold bind at 1.
  destruct (for_each _ _ _ t2) as [[st|e] t3]; simpl; done.
Qed.

End RunShape.

Section RunSetup.

Variables (w : world) (cfg : config).

Local Ltac leaf :=
  simpl in *; try discriminate;
  repeat match goal with
         | |- _ ∧ _ => split
         | |- Forall _ _ => repeat constructor
         | |- (truncations _ ≤ _)%nat => unfold truncations; simpl; lia
         | |- _ -> _ => intros
         | |- truncations _ = _ => reflexivity
         | |- _ => first [reflexivity | discriminate]
         end.

(** A run whose setup fails does no tenant work, truncates at most once
    (exactly once when the connection was opened), and ends with a 500
    response unless the secret resolver itself raised. *)
Lemma setup_failure_shape :
  central_ready w = false ->
  Forall (fun e => tenant_work e = false) (run w cfg).2
  ∧ (truncations (run w cfg).2 ≤ 1)%nat
  ∧ (central_opened w = true -> truncations (run w cfg).2 = 1%nat)
  ∧ (central_opened w = false -> truncations (run w cfg).2 = 0%nat)
  ∧ match (run w cfg).1 with
    | Ret r => statusCode r = 500%Z
    | Raise e =>
      (get_secret_local w CENTRAL_REPO_SECRET_NAME [Log Info StartingLoad]).1
      = Raise e
    end.
Proof.
  unfold central_ready, central_opened. rewrite run_eq. unfold bind.
  rewrite get_secret_local_eq.
  destruct (get_secret_value w _ _) as [e|[[|j]|]]; [destruct e|..]; try solve [leaf].
  simpl. destruct (truthy j); [|solve [leaf]]. simpl.
  rewrite get_central_connection_eq.
  destruct (HAS_POSTGRES w); [|solve [leaf]]. simpl.
  destruct (has_get j); [|solve [leaf]].
  destruct (central_connect w _ j); [solve [leaf]|].
  rewrite truncate_central_table_eq. simpl.
  destruct (central_truncate w _); [solve [leaf]|].
  destruct (central_commit w _); [solve [leaf]|].
  discriminate.
Qed.

Lemma tenant_event_quiet e : tenant_event e = true -> is_truncate e = false.
Proof. by destruct e. Qed.

(** A run whose setup succeeds has opened the connection, and its history
    is a quiet prefix, the committed TRUNCATE, and then no other TRUNCATE. *)
Lemma setup_success_shape :
  central_ready w = true ->
  central_opened w = true
  ∧ exists pre d,
      (run w cfg).2 = pre ++ CentralTruncate :: CentralCommit :: d
      ∧ Forall (fun e => quiet_event e = true) pre
      ∧ Forall (fun e => is_truncate e = false) d.
Proof.
  unfold central_ready, central_opened. rewrite run_eq. unfold bind.
  rewrite get_secret_local_eq.
  destruct (get_secret_value w _ _) as [e|[[|j]|]]; [destruct e|..];
    try solve [simpl; discriminate].
  simpl. destruct (truthy j); [|simpl; discriminate]. simpl.
  rewrite get_central_connection_eq.
  destruct (HAS_POSTGRES w); [|simpl; discriminate]. simpl.
  destruct (has_get j); [|simpl; discriminate].
  destruct (central_connect w _ j); [simpl; discriminate|].
  rewrite truncate_central_table_eq. simpl.
  destruct (central_truncate w _); [simpl; discriminate|].
  destruct (central_commit w _); [simpl; discriminate|].
  intros _. split; [done|].
  match goal with
  | |- context [for_each ?b ?l ?s ?t] =>
    destruct (tenant_loop_tenant w cfg s t) as (d & Hd & HP);
    destruct (for_each b l s t) as [[st|e] t3]
  end; simpl in Hd; subst t3; simpl.
  - exists [Log Info StartingLoad; GetSecretValue CENTRAL_REPO_SECRET_NAME;
            CentralConnect; Log Info CleaningUp],
           (Log Info TableCleanedUp :: d ++ [CentralClose]).
    split; [done|]. split; [by repeat constructor|].
    constructor; [done|]. apply Forall_app. split; [|by repeat constructor].
    eapply Forall_impl; [exact HP|]. apply tenant_event_quiet.
  - exists [Log Info StartingLoad; GetSecretValue CENTRAL_REPO_SECRET_NAME;
            CentralConnect; Log Info CleaningUp],
           (Log Info TableCleanedUp :: d).
    split; [done|]. split; [by repeat constructor|].
    constructor; [done|].
    eapply Forall_impl; [exact HP|]. apply tenant_event_quiet.
Qed.

End RunSetup.

(** ** Lists of events *)

Lemma truncations_app t1 t2 : truncations (t1 ++ t2) = (truncations t1 + truncations t2)%nat.
Proof. unfold truncations. by rewrite filter_app, length_app. Qed.

Lemma truncations_none t :
  Forall (fun e => is_truncate e = false) t -> truncations t = 0%nat.
Proof.
  unfold truncations. induction 1 as [|e t He _ IH]; [done|].
  rewrite filter_cons. destruct (decide (is_truncate e)) as [Ht|_]; [|done].
  rewrite He in Ht. done.
Qed.

(** An event of class [P] that occurs in [pre ++ rest], where nothing in
    [pre] is of class [P], occurs in [rest]. *)
Lemma occurs_after_prefix (P : event -> bool) (pre rest t1 t2 : trace) (e : event) :
  pre ++ rest = t1 ++ e :: t2 ->
  Forall (fun x => P x = false) pre ->
  P e = true ->
  exists b, t1 = pre ++ b ∧ rest = b ++ e :: t2.
Proof.
  revert t1. induction pre as [|x pre IH]; intros t1 Heq Hpre He.
  - by exists t1.
  - apply Forall_cons in Hpre as [Hx Hpre]. destruct t1 as [|y t1]; simpl in Heq.
    + injection Heq as -> _. congruence.
    + injection Heq as -> Heq. destruct (IH t1 Heq Hpre He) as (b & -> & ->).
      by exists b.
Qed.

(** ** The secret resolver *)

(** C4 (amended).  [get_secret_local] returns None after logging a warning
    when the secret store raises ClientError, and None without a warning
    when the response has no SecretString; any other exception of the store,
    and the JSON error of a malformed SecretString, propagate to the caller;
    a well-formed SecretString is returned parsed.  On None the instance
    loop logs, skips the instance and goes on, while the handler, for the
    central secret, ends the run with the 500 response. *)
Theorem secret_resolver_outcomes (w : world) (name : string) (t : trace) :
  (get_secret_value w t name = SecretRaises ClientError ->
   get_secret_local w name t
   = (Ret JNull, t ++ [GetSecretValue name; Log Warning (SecretNotFound name)]))
  ∧ (get_secret_value w t name = SecretValue None ->
     get_secret_local w name t = (Ret JNull, t ++ [GetSecretValue name]))
  ∧ (forall e, e ≠ ClientError -> get_secret_value w t name = SecretRaises e ->
     get_secret_local w name t = (Raise e, t ++ [GetSecretValue name]))
  ∧ (get_secret_value w t name = SecretValue (Some Malformed) ->
     get_secret_local w name t = (Raise JSONDecodeError, t ++ [GetSecretValue name]))
  ∧ (forall j, get_secret_value w t name = SecretValue (Some (Parses j)) ->
     get_secret_local w name t = (Ret j, t ++ [GetSecretValue name]))
  ∧ (forall cfg acc st db t',
       skipped cfg db = false ->
       get_secret_local w (instance_secret_name (Id acc) (DBInstanceIdentifier db))
         (t ++ [Log Info (LoadingFrom (DBInstanceIdentifier db) (Engine db))])
       = (Ret JNull, t') ->
       process_instance w cfg acc st db t
       = (Ret st,
          t' ++ [Log Warning
                   (SkipNoSecret
                      (instance_secret_name (Id acc) (DBInstanceIdentifier db)))]))
  ∧ (forall cfg t',
       get_secret_local w CENTRAL_REPO_SECRET_NAME [Log Info StartingLoad]
       = (Ret JNull, t') ->
       run w cfg = (Ret {| statusCode := 500; body := NoCredentialsFound |}, t')).
Proof.
  repeat split.
  - intros H. by rewrite get_secret_local_eq, H.
  - intros H. by rewrite get_secret_local_eq, H.
  - intros e Hne H. rewrite get_secret_local_eq, H. by destruct e.
  - intros H. by rewrite get_secret_local_eq, H.
  - intros j H. by rewrite get_secret_local_eq, H.
  - intros cfg acc st db t' Hs H. unfold process_instance. rewrite Hs.
    unfold bind at 1. simpl. unfold bind at 1. by rewrite H.
  - intros cfg t' H. by rewrite run_eq, H.
Qed.

(** C4 (as stated, refuted).  A SecretString that is not JSON makes the
    resolver raise instead of returning None. *)
Lemma malformed_secret_propagates :
  ¬ (forall (w : world) (name : string) (t : trace),
        (exists e, get_secret_value w t name = SecretRaises e)
        ∨ get_secret_value w t name = SecretValue (Some Malformed) ->
        exists t', get_secret_local w name t = (Ret JNull, t')).
Proof.
  intros H.
  destruct (H malformed_secret_world "xxx/yyy/111122223333/orders" []) as [t' Ht'].
  - by right.
  - vm_compute in Ht'. discriminate Ht'.
Qed.

(** ** Truncation and the fatal results *)

Lemma quiet_event_not_truncate e : quiet_event e = true -> is_truncate e = false.
Proof. by destruct e. Qed.

Lemma quiet_event_not_write e : quiet_event e = true -> is_write e = false.
Proof. by destruct e. Qed.

(** C5 (amended).  In every run TRUNCATE is executed at most once: exactly
    once when the run gets past credential resolution and opens the central
    connection, not at all otherwise.  Every batch write of a run is issued
    after that TRUNCATE has been executed and committed. *)
Theorem truncation_precedes_writes (w : world) (cfg : config) :
  (truncations (run w cfg).2 ≤ 1)%nat
  ∧ (central_opened w = true -> truncations (run w cfg).2 = 1%nat)
  ∧ (central_opened w = false -> truncations (run w cfg).2 = 0%nat)
  ∧ (forall t1 params t2,
       (run w cfg).2 = t1 ++ CentralExecuteMany params :: t2 ->
       exists a b, t1 = a ++ CentralTruncate :: CentralCommit :: b).
Proof.
  destruct (central_ready w) eqn:Hr.
  - destruct (setup_success_shape w cfg Hr) as (Ho & pre & d & Ht & Hpre & Hd).
    assert (Hone : truncations (run w cfg).2 = 1%nat).
    { rewrite Ht, truncations_app.
      rewrite (truncations_none pre)
        by (eapply Forall_impl; [exact Hpre|apply quiet_event_not_truncate]).
      change (truncations (CentralTruncate :: CentralCommit :: d))
        with (S (truncations d)).
      by rewrite (truncations_none d Hd). }
    repeat split.
    + lia.
    + done.
    + intros Hc. congruence.
    + intros t1 params t2 Heq. rewrite Ht in Heq.
      destruct (occurs_after_prefix is_write (pre ++ [CentralTruncate; CentralCommit])
                  d t1 t2 (CentralExecuteMany params)) as (b & Hb & _).
      * by rewrite <- app_assoc.
      * apply Forall_app. split; [|by repeat constructor].
        eapply Forall_impl; [exact Hpre|apply quiet_event_not_write].
      * done.
      * exists pre, b. by rewrite Hb, <- app_assoc.
  - destruct (setup_failure_shape w cfg Hr) as (Hwork & Hle & H1 & H0 & _).
    repeat split; try done.
    intros t1 params t2 Heq. rewrite Heq in Hwork.
    apply Forall_app in Hwork as [_ Hwork].
    apply Forall_cons in Hwork as [Hw _]. discriminate Hw.
Qed.

(** C5 (as stated, refuted).  A run that finds the central credentials but
    cannot open the central connection never executes TRUNCATE. *)
Lemma no_truncation_without_connection :
  ¬ (forall (w : world) (cfg : config),
        past_credentials w = true -> truncations (run w cfg).2 = 1%nat).
Proof.
  intros H. specialize (H unreachable_central_world one_account).
  assert (Hp : past_credentials unreachable_central_world = true)
    by (vm_compute; reflexivity).
  specialize (H Hp). vm_compute in H. discriminate H.
Qed.

(** C7 (amended).  When central credential resolution, central connection or
    truncation fails, the run does no tenant work: no role assumption, no
    discovery, no secret lookup besides the central one, no source
    connection and no write.  It ends with a 500 response, except when the
    secret resolver itself raised: then the run ends with that exception. *)
Theorem failed_setup_ends_run (w : world) (cfg : config) :
  central_setup_fails w ->
  Forall (fun e => tenant_work e = false) (run w cfg).2
  ∧ ((forall e, (get_secret_local w CENTRAL_REPO_SECRET_NAME
                   [Log Info StartingLoad]).1 ≠ Raise e) ->
     is_fatal (run w cfg).1)
  ∧ (forall e, (get_secret_local w CENTRAL_REPO_SECRET_NAME
                  [Log Info StartingLoad]).1 = Raise e ->
     (run w cfg).1 = Raise e).
Proof.
  intros Hf. destruct (setup_failure_shape w cfg Hf) as (Hwork & _ & _ & _ & Hout).
  split; [exact Hwork|]. split.
  - intros Hret. destruct (run w cfg).1 as [r|e].
    + by exists r.
    + by destruct (Hret e).
  - intros e He. rewrite run_eq.
    destruct (get_secret_local w CENTRAL_REPO_SECRET_NAME [Log Info StartingLoad])
      as [[creds|e'] t0]; simpl in *; [discriminate He|by injection He as ->].
Qed.

Lemma failed_setup_ends_run_witness :
  central_setup_fails truncate_fails_world
  ∧ Forall (fun e => tenant_work e = false) (run truncate_fails_world one_account).2
  ∧ is_fatal (run truncate_fails_world one_account).1.
Proof.
  assert (Hf : central_setup_fails truncate_fails_world) by (vm_compute; reflexivity).
  destruct (failed_setup_ends_run truncate_fails_world one_account Hf)
    as (Hwork & Hfatal & _).
  split; [exact Hf|]. split; [exact Hwork|].
  apply Hfatal. intros e He. vm_compute in He. discriminate He.
Defined.

(** C7 (as stated, refuted).  When the central SecretString is not JSON,
    credential resolution fails and the run ends with the exception of the
    parser, not with a 500 response. *)
Lemma malformed_central_secret_is_not_a_500 :
  ¬ (forall (w : world) (cfg : config),
        central_setup_fails w ->
        is_fatal (run w cfg).1
        ∧ Forall (fun e => tenant_work e = false) (run w cfg).2).
Proof.
  intros H.
  destruct (H malformed_secret_world one_account) as [(r & Hr & _) _].
  - vm_compute. reflexivity.
  - vm_compute in Hr. discriminate Hr.
Qed.

(** ** Failures inside the tenant loop *)

(** A failing INSERT is logged, rolled back and raised again by the writer,
    and nothing between the writer and the caller of the handler catches
    it. *)
Lemma store_full_data_write_failure (w : world) (acc_name db_id : string)
    (st : totals) (r : list (string * pyval)) (rows : list (list (string * pyval)))
    (t : trace) (e : exn) :
  central_executemany w (t ++ [Log Info (FoundRecords (length (r :: rows)))])
    (build_params acc_name db_id (r :: rows)) = Some e ->
  store_full_data w acc_name db_id st (r :: rows) t
  = (Raise e,
     t ++ [Log Info (FoundRecords (length (r :: rows)));
           CentralExecuteMany (build_params acc_name db_id (r :: rows));
           Log Error SavingFailed; CentralRollback]).
Proof.
  intros H. unfold store_full_data, save_batch_to_central.
  unfold bind at 1. simpl. unfold bind at 1, try_except, call_db.
  unfold bind at 1. unfold bind at 1. simpl. simpl in H. rewrite H. simpl.
  unfold bind, log, call, raise. simpl. by rewrite <- !app_assoc.
Qed.

Lemma for_each_raise {A S} (body : S -> A -> M S) (x : A) (l : list A) (s : S)
    (t t' : trace) (e : exn) :
  body s x t = (Raise e, t') -> for_each body (x :: l) s t = (Raise e, t').
Proof. intros H. simpl. unfold bind. by rewrite H. Qed.

(** C1 (the code departs from it).  With two eligible instances and a
    central INSERT that fails, the run does not return: the exception of the
    first write leaves the handler, the second instance is never looked up,
    and the last thing done is the rollback (the central connection is not
    closed). *)
Theorem failed_write_aborts_run :
  (run insert_fails_world one_account).1 = Raise DriverError
  ∧ secret_lookups (run insert_fails_world one_account).2
    = [CENTRAL_REPO_SECRET_NAME; instance_secret_name "111122223333" "orders"]
  ∧ last (run insert_fails_world one_account).2 = Some CentralRollback.
Proof. vm_compute. repeat split; reflexivity. Qed.

(** C3 (the code departs from it).  When the query fails on an open
    connection, either connector logs and returns the empty list, and
    returns without closing the connection. *)
Theorem failed_query_leaves_connection_open :
  execute_postgres_full query_fails_world login (Some "orders.example")
    SOURCE_DB_NAME query_all []
  = (Ret [],
     [SourceConnect Postgres (Some "orders.example") SOURCE_DB_NAME;
      SourceExecute Postgres query_all;
      Log Error (SourceFailed Postgres)])
  ∧ execute_mssql_full query_fails_world login (Some "billing.example")
      SOURCE_DB_NAME query_all []
    = (Ret [],
       [SourceConnect Mssql (Some "billing.example") SOURCE_DB_NAME;
        SourceExecute Mssql query_all;
        Log Error (SourceFailed Mssql)]).
Proof. split; vm_compute; reflexivity. Qed.

(** On the success path the connection is closed before the rows are
    returned. *)
Lemma read_source_closes (w : world) (k : engine_kind) (creds : json)
    (host : option string) (db_name query : string) (t t' : trace)
    (rows : list (list (string * pyval))) :
  read_source w k creds host db_name query t = (Ret rows, t') ->
  last t' = Some (SourceClose k).
Proof.
  unfold read_source, call_db, call_value, bind, call, ret, raise. simpl.
  destruct (source_connect w t k creds host db_name); [discriminate|].
  destruct (source_execute w _ k query); [discriminate|].
  destruct (source_fetchall w _ k); [|discriminate].
  intros [= _ <-]. by rewrite last_snoc.
Qed.

(** ** Eligibility and engine dispatch *)

Lemma for_each_skip {A S} (body : S -> A -> M S) (x : A) (before after : list A) :
  (forall s t, body s x t = (Ret s, t)) ->
  forall s t, for_each body (before ++ x :: after) s t
              = for_each body (before ++ after) s t.
Proof.
  intros Hx. induction before as [|y before IH]; intros s t; simpl.
  - unfold bind. by rewrite Hx.
  - unfold bind. destruct (body s y t) as [[s'|e] t']; [apply IH|done].
Qed.

(** C6.  An instance whose identifier is in the denylist, or whose status is
    not 'available', is skipped before anything is done for it: the loop
    body returns at once with the totals and the history unchanged (no
    secret lookup, no connection), so that removing the instance from the
    discovery result changes nothing in the loop. *)
Theorem ineligible_instance_is_untouched (w : world) (cfg : config)
    (acc : account) (db : db_instance) :
  DBInstanceIdentifier db ∈ BLACKLIST_RDS cfg ∨ DBInstanceStatus db ≠ "available" ->
  (forall st t, process_instance w cfg acc st db t = (Ret st, t))
  ∧ (forall before after st t,
       for_each (process_instance w cfg acc) (before ++ db :: after) st t
       = for_each (process_instance w cfg acc) (before ++ after) st t).
Proof.
  intros H.
  assert (Hs : skipped cfg db = true).
  { unfold skipped. destruct H as [Hin|Hst].
    - by rewrite bool_decide_eq_true_2.
    - apply String.eqb_neq in Hst. rewrite Hst. by rewrite orb_true_r. }
  assert (Hbody : forall st t, process_instance w cfg acc st db t = (Ret st, t)).
  { intros st t. unfold process_instance. by rewrite Hs. }
  split; [exact Hbody|].
  intros before after. by apply for_each_skip.
Qed.

Lemma ineligible_instance_is_untouched_witness :
  (DBInstanceIdentifier stopped_db ∈ BLACKLIST_RDS one_account
   ∨ DBInstanceStatus stopped_db ≠ "available")
  ∧ (forall st t,
       process_instance calm_world one_account (mk_account "111122223333" "Tenant One")
         st stopped_db t = (Ret st, t)).
Proof.
  assert (H : DBInstanceIdentifier stopped_db ∈ BLACKLIST_RDS one_account
              ∨ DBInstanceStatus stopped_db ≠ "available")
    by (right; simpl; discriminate).
  split; [exact H|].
  exact (proj1 (ineligible_instance_is_untouched calm_world one_account
                  (mk_account "111122223333" "Tenant One") stopped_db H)).
Defined.

(** C10 (amended).  The engine is dispatched by substring, 'sqlserver'
    first: an engine string that contains 'sqlserver' goes to the SQL Server
    connector; one that contains 'postgres' and not 'sqlserver' (such as
    'aurora-postgresql') goes to the PostgreSQL connector; for one that
    contains neither, no connector is called and the instance ends like a
    zero-row result: 'no data' is logged, nothing is written, and the totals
    and the report are unchanged. *)
Theorem engine_dispatch (w : world) (creds : json) (engine : string)
    (host : option string) (t : trace) :
  (str_in "sqlserver" engine = true ->
   fetch_full_data w creds engine host t
   = execute_mssql_full w creds host SOURCE_DB_NAME query_all t)
  ∧ (str_in "sqlserver" engine = false -> str_in "postgres" engine = true ->
     fetch_full_data w creds engine host t
     = execute_postgres_full w creds host SOURCE_DB_NAME query_all t)
  ∧ (str_in "sqlserver" engine = false -> str_in "postgres" engine = false ->
     fetch_full_data w creds engine host t = (Ret [], t)
     ∧ forall acc_name db_id st,
         (full_data <~ fetch_full_data w creds engine host ;;
          store_full_data w acc_name db_id st full_data) t
         = (Ret st, t ++ [Log Info NoDataFound]))
  ∧ fetch_full_data w creds "aurora-postgresql" host t
    = execute_postgres_full w creds host SOURCE_DB_NAME query_all t.
Proof.
  unfold fetch_full_data. split; [|split; [|split]].
  - by intros ->.
  - by intros -> ->.
  - intros -> ->. split; [done|]. intros acc_name db_id st. done.
  - done.
Qed.

(** C10 (as stated, refuted).  An engine string that contains 'postgres' as
    well as 'sqlserver' is not routed to the PostgreSQL connector. *)
Lemma postgres_substring_is_not_enough :
  ¬ (forall (w : world) (creds : json) (engine : string) (host : option string)
            (t : trace),
        str_in "postgres" engine = true ->
        fetch_full_data w creds engine host t
        = execute_postgres_full w creds host SOURCE_DB_NAME query_all t).
Proof.
  intros H.
  specialize (H calm_world login "sqlserver-postgres" (Some "h") []).
  assert (Hin : str_in "postgres" "sqlserver-postgres" = true) by reflexivity.
  specialize (H Hin). vm_compute in H. discriminate H.
Qed.

(** ** The report and the total *)

Section ReportLines.

Lemma list_ascii_of_string_app (s1 s2 : string) :
  list_ascii_of_string (s1 +:+ s2) = list_ascii_of_string s1 ++ list_ascii_of_string s2.
Proof. induction s1 as [|c s1 IH]; simpl; [done|]. by rewrite IH. Qed.

Lemma strip_prefix_app (p l : list ascii) : strip_prefix p (p ++ l) = Some l.
Proof.
  induction p as [|a p IH]; simpl; [by destruct l|].
  by rewrite Ascii.eqb_refl.
Qed.

Lemma leading_digits_app (ds rest : list ascii) (c : ascii) :
  Forall (fun d => is_digit d = true) ds -> is_digit c = false ->
  leading_digits (ds ++ c :: rest) = ds.
Proof.
  intros Hds Hc. induction Hds as [|d ds Hd _ IH]; simpl.
  - by rewrite Hc.
  - by rewrite Hd, IH.
Qed.

Lemma digits_of_uint (d : Decimal.uint) :
  Forall (fun c => is_digit c = true)
         (list_ascii_of_string (NilZero.string_of_uint d)).
Proof.
  assert (H : Forall (fun c => is_digit c = true)
                     (list_ascii_of_string (NilEmpty.string_of_uint d))).
  { induction d; simpl; constructor; done. }
  destruct d; try exact H. by repeat constructor.
Qed.

Lemma count_of_digits (n : nat) :
  Nat.of_uint <$> NilZero.uint_of_string (NilZero.string_of_uint (Nat.to_uint n))
  = Some n.
Proof.
  pose proof (DecimalNat.Unsigned.of_to n) as H.
  destruct (Nat.to_uint n) eqn:E;
    [simpl in *; by subst n
    |rewrite NilZero.usu by discriminate; simpl; by rewrite H..].
Qed.

Lemma reported_count_report_line (db_id : string) (inserted : nat) :
  reported_count (report_line db_id inserted) = Some inserted.
Proof.
  unfold reported_count, report_line.
  rewrite !list_ascii_of_string_app, !rev_app_distr, <- !app_assoc.
  rewrite strip_prefix_app.
  change (rev (list_ascii_of_string ": ")) with [" "%char; ":"%char].
  change ([" "%char; ":"%char] ++ rev (list_ascii_of_string db_id))
    with (" "%char :: ":"%char :: rev (list_ascii_of_string db_id)).
  rewrite leading_digits_app; [|apply Forall_rev, digits_of_uint|done].
  rewrite rev_involutive, string_of_list_ascii_of_string.
  apply count_of_digits.
Qed.

Lemma reported_total_snoc (details : list string) (line : string) (n k : nat) :
  reported_total details = Some n -> reported_count line = Some k ->
  reported_total (details ++ [line]) = Some (n + k)%nat.
Proof.
  revert n. induction details as [|l details IH]; intros n; simpl.
  - intros [= <-] ->. simpl. f_equal. lia.
  - destruct (reported_count l) as [a|]; [|done].
    destruct (reported_total details) as [m|]; [|done].
    intros [= <-] Hk. rewrite (IH m eq_refl Hk). f_equal. lia.
Qed.

End ReportLines.

Section Returns.

Context {A : Type} (Q : A -> Prop).

Lemma returns_ret (a : A) : Q a -> returns Q (ret a).
Proof. intros Ha t a' t' [= <- _]. exact Ha. Qed.

Lemma returns_bind {B} (m : M B) (k : B -> M A) :
  (forall b, returns Q (k b)) -> returns Q (bind m k).
Proof.
  intros Hk t a t'. unfold bind. destruct (m t) as [[b|e] t0]; [|done].
  apply Hk.
Qed.

Lemma returns_for_each {X} (body : A -> X -> M A) (l : list X) :
  (forall s x, Q s -> returns Q (body s x)) ->
  forall s, Q s -> returns Q (for_each body l s).
Proof.
  intros Hbody. induction l as [|x l IH]; intros s Hs; simpl.
  - by apply returns_ret.
  - intros t a t'. unfold bind.
    destruct (body s x t) as [[s'|e] t0] eqn:E; [|done].
    apply IH. by eapply Hbody.
Qed.

End Returns.

Ltac returns_step :=
  lazymatch goal with
  | |- returns _ (ret _) => apply returns_ret
  | |- returns _ (bind _ _) => apply returns_bind; intros ?
  end.

Section Totals.

Variables (w : world) (cfg : config).

Lemma store_full_data_agrees acc_name db_id st rows :
  report_agrees st ->
  returns report_agrees (store_full_data w acc_name db_id st rows).
Proof.
  intros Hst. unfold store_full_data. destruct rows; repeat returns_step; [done|].
  unfold report_agrees in *. simpl.
  apply reported_total_snoc; [done|apply reported_count_report_line].
Qed.

Lemma process_instance_agrees acc st db :
  report_agrees st -> returns report_agrees (process_instance w cfg acc st db).
Proof.
  intros Hst. unfold process_instance.
  destruct (skipped cfg db); repeat returns_step; [done|].
  case_match; repeat returns_step; [done|].
  by apply store_full_data_agrees.
Qed.

Lemma process_account_agrees st acc :
  report_agrees st -> returns report_agrees (process_account w cfg st acc).
Proof.
  intros Hst. unfold process_account. repeat returns_step.
  case_match; repeat returns_step; [|done].
  case_match; repeat returns_step; [|done].
  apply returns_for_each; [|done]. intros ? ?. apply process_instance_agrees.
Qed.

Lemma tenant_loop_agrees :
  returns report_agrees
    (for_each (process_account w cfg) (TARGET_ACCOUNTS cfg)
              {| total_synced := 0; report := [] |}).
Proof.
  apply returns_for_each; [|done]. intros ? ?. apply process_account_agrees.
Qed.

End Totals.

(** C8.  In every run that returns the success result, the counts shown by
    the lines of the report add up to the total of the result body; and a
    connector result of zero rows only logs 'no data': the totals and the
    report are unchanged and the writer is not called, whatever the instance
    the connector was called for. *)
Theorem report_adds_up (w : world) (cfg : config) :
  is_success (run w cfg).1 ->
  (exists total details,
      (run w cfg).1
      = Ret {| statusCode := 200; body := SuccessFullLoad total details |}
      ∧ reported_total details = Some total)
  ∧ (forall acc_name db_id st t,
       store_full_data w acc_name db_id st [] t
       = (Ret st, t ++ [Log Info NoDataFound]))
  ∧ (forall acc st db creds t t1 t2,
       skipped cfg db = false ->
       get_secret_local w (instance_secret_name (Id acc) (DBInstanceIdentifier db))
         (t ++ [Log Info (LoadingFrom (DBInstanceIdentifier db) (Engine db))])
       = (Ret creds, t1) ->
       truthy creds = true ->
       fetch_full_data w creds (Engine db) (Endpoint db) t1 = (Ret [], t2) ->
       process_instance w cfg acc st db t = (Ret st, t2 ++ [Log Info NoDataFound])).
Proof.
  intros (r & Hr & H200). split; [|split; [done|]]; cycle 1.
  { intros acc st db creds t t1 t2 Hs Hsecret Htruthy Hfetch.
    unfold process_instance. rewrite Hs.
    unfold bind at 1. simpl. unfold bind at 1. rewrite Hsecret, Htruthy. simpl.
    unfold bind at 1. by rewrite Hfetch. }
  rewrite run_eq in Hr |- *.
  destruct (get_secret_local w CENTRAL_REPO_SECRET_NAME [Log Info StartingLoad])
    as [[creds|e] t0]; [|discriminate Hr].
  destruct (truthy creds); [|injection Hr as <-; discriminate H200].
  destruct (get_central_connection w creds t0) as [[[]|e] t1];
    [|injection Hr as <-; discriminate H200].
  destruct (truncate_central_table w t1) as [[[]|e] t2];
    [|injection Hr as <-; discriminate H200].
  destruct (for_each _ _ _ t2) as [[st|e] t3] eqn:Hloop; [|discriminate Hr].
  exists (total_synced st), (report st). split; [done|].
  exact (tenant_loop_agrees w cfg _ _ _ Hloop).
Qed.

Lemma report_adds_up_witness :
  is_success (run calm_world one_account).1
  ∧ exists total details,
      (run calm_world one_account).1
      = Ret {| statusCode := 200; body := SuccessFullLoad total details |}
      ∧ reported_total details = Some total.
Proof.
  assert (H : is_success (run calm_world one_account).1).
  { eexists. split; [vm_compute; reflexivity|reflexivity]. }
  split; [exact H|].
  exact (proj1 (report_adds_up calm_world one_account H)).
Defined.

(** ** Substrings and upper-cased keys *)

Lemma append_cons (c : ascii) (s1 s2 : string) :
  String c s1 +:+ s2 = String c (s1 +:+ s2).
Proof. reflexivity. Qed.

Lemma prefix_occurs (sub s : string) :
  String.prefix sub s = true <-> exists after, s = sub +:+ after.
Proof.
  revert s. induction sub as [|a sub IH]; intros [|b s]; simpl.
  - split; [intros _; by exists ""|done].
  - split; [intros _; by exists (String b s)|done].
  - split; [done|intros [after H]; rewrite append_cons in H; discriminate H].
  - destruct (ascii_dec a b) as [->|Hne].
    + rewrite IH. split; intros [after H]; exists after;
        rewrite append_cons in *; congruence.
    + split; [done|]. intros [after H]. rewrite append_cons in H. congruence.
Qed.

Lemma str_in_cons (sub : string) (c : ascii) (s : string) :
  str_in sub (String c s) = String.prefix sub (String c s) || str_in sub s.
Proof. reflexivity. Qed.

(** The dispatch test [sub in engine] holds exactly when [sub] occurs in the
    engine string, somewhere. *)
Theorem str_in_occurs (sub s : string) :
  str_in sub s = true <-> occurs_in sub s.
Proof.
  unfold occurs_in. split.
  - induction s as [|c s IH].
    + change (str_in sub "") with (String.prefix sub "" || false).
      rewrite orb_false_r. intros H. apply prefix_occurs in H as [after H].
      by exists "", after.
    + rewrite str_in_cons, orb_true_iff. intros [H|H].
      * apply prefix_occurs in H as [after H]. by exists "", after.
      * destruct (IH H) as (before & after & ->). by exists (String c before), after.
  - intros (before & after & ->). induction before as [|c before IH].
    + assert (H : String.prefix sub (sub +:+ after) = true)
        by (apply prefix_occurs; by exists after).
      change ("" +:+ sub +:+ after) with (sub +:+ after).
      destruct (sub +:+ after) as [|c rest].
      * change (str_in sub "") with (String.prefix sub "" || false). by rewrite H.
      * by rewrite str_in_cons, H.
    + rewrite append_cons, str_in_cons, IH. apply orb_true_r.
Qed.

Lemma upper_ascii_idempotent (c : ascii) : upper_ascii (upper_ascii c) = upper_ascii c.
Proof. destruct c as [[] [] [] [] [] [] [] []]; reflexivity. Qed.

Lemma upper_idempotent (s : string) : upper (upper s) = upper s.
Proof.
  induction s as [|c s IH]; simpl; [done|].
  by rewrite upper_ascii_idempotent, IH.
Qed.

Lemma last_match_elem (r : list (string * pyval)) (K : string) (v : pyval) :
  last_match r K = Some v -> exists k, (k, v) ∈ r ∧ upper k = K.
Proof.
  unfold last_match. intros H. apply last_Some_elem_of in H.
  apply list_elem_of_omap in H as ([k v'] & Hin & Hkv). simpl in Hkv.
  destruct (decide (upper k = K)) as [Heq|]; [|done].
  injection Hkv as ->. by exists k.
Qed.

Lemma last_match_some (r : list (string * pyval)) (k : string) (v : pyval) :
  (k, v) ∈ r -> is_Some (last_match r (upper k)).
Proof.
  unfold last_match. intros Hin.
  assert (Hv : v ∈ omap (fun kv : string * pyval =>
                           if decide (upper kv.1 = upper k) then Some kv.2 else None) r).
  { apply list_elem_of_omap. exists (k, v). split; [done|]. simpl.
    by destruct (decide (upper k = upper k)). }
  destruct (omap _ r) as [|x l] eqn:E using rev_ind.
  - by apply elem_of_nil in Hv.
  - rewrite last_snoc. by eexists.
Qed.

(** The upper-cased dictionary holds a row's values under upper-cased names
    only: every column can be read under the upper-cased form of its name,
    every stored value is the value of a column with that upper-cased name,
    and a key with a lower-case letter is never found. *)
Theorem row_upper_keys (r : list (string * pyval)) :
  (forall k v, (k, v) ∈ r -> is_Some (row_upper r !! upper k))
  ∧ (forall K v, row_upper r !! K = Some v ->
       upper K = K ∧ exists k, (k, v) ∈ r ∧ upper k = K)
  ∧ (forall K, upper K ≠ K -> dict_get (row_upper r) K = PNone).
Proof.
  assert (Hlook : forall K, row_upper r !! K = last_match r K).
  { intros K. unfold row_upper. change (fold_left _ r ∅) with (upper_into ∅ r).
    rewrite upper_into_lookup. destruct (last_match r K); [done|apply lookup_empty]. }
  assert (Hsome : forall K v, row_upper r !! K = Some v ->
                    upper K = K ∧ exists k, (k, v) ∈ r ∧ upper k = K).
  { intros K v H. rewrite Hlook in H.
    destruct (last_match_elem r K v H) as (k & Hin & Hk).
    split; [|by exists k]. rewrite <- Hk. apply upper_idempotent. }
  split; [|split; [exact Hsome|]].
  - intros k v Hin. rewrite Hlook. by eapply last_match_some.
  - intros K HK. unfold dict_get.
    destruct (row_upper r !! K) as [v|] eqn:E; [|done].
    destruct (Hsome K v E) as [Hup _]. done.
Qed.

(** ** The central writer and the connectors, call by call *)


Lemma save_batch_to_central_eq (w : world) (rows : list (list (string * pyval)))
    (source_account source_db : string) (t : trace) :
  save_batch_to_central w rows source_account source_db t =
    match rows with
    | [] => (Ret 0%nat, t)
    | _ =>
      let params := build_params source_account source_db rows in
      match central_executemany w t params with
      | Some e =>
        (Raise e, t ++ [CentralExecuteMany params; Log Error SavingFailed;
                        CentralRollback])
      | None =>
        match central_commit w (t ++ [CentralExecuteMany params]) with
        | Some e =>
          (Raise e, t ++ [CentralExecuteMany params; CentralCommit;
                          Log Error SavingFailed; CentralRollback])
        | None =>
          (Ret (length rows),
           t ++ [CentralExecuteMany params; CentralCommit;
                 Log Info (InsertedRecords (length rows) source_db)])
        end
      end
    end.
Proof.
  destruct rows as [|r rows]; [done|].
  unfold save_batch_to_central, try_except, call_db, bind, call, log, ret, raise.
  cbv zeta. destruct (central_executemany w t _) as [e|].
  - cbn [fst snd]. by rewrite <- ?app_assoc.
  - destruct (central_commit w _) as [e|]; cbn [fst snd];
      rewrite <- ?app_assoc; [done|].
    unfold build_params. by rewrite length_map.
Qed.

Lemma read_source_eq (w : world) (k : engine_kind) (creds : json)
    (host : option string) (db_name query : string) (t : trace) :
  read_source w k creds host db_name query t =
    match source_connect w t k creds host db_name with
    | Some e => (Raise e, t ++ [SourceConnect k host db_name])
    | None =>
      match source_execute w (t ++ [SourceConnect k host db_name]) k query with
      | Some e => (Raise e, t ++ [SourceConnect k host db_name; SourceExecute k query])
      | None =>
        match source_fetchall w
                (t ++ [SourceConnect k host db_name; SourceExecute k query]) k with
        | Raise e =>
          (Raise e, t ++ [SourceConnect k host db_name; SourceExecute k query;
                          SourceFetch k])
        | Ret rows =>
          (Ret rows, t ++ [SourceConnect k host db_name; SourceExecute k query;
                           SourceFetch k; SourceClose k])
        end
      end
    end.
Proof.
  unfold read_source, call_db, call_value, bind, call, ret, raise.
  destruct (source_connect w t k creds host db_name) as [e|]; [done|].
  cbn [fst snd]. rewrite <- ?app_assoc. cbn [app].
  destruct (source_execute w _ k query) as [e|]; [by rewrite <- ?app_assoc|].
  rewrite <- ?app_assoc. cbn [app].
  destruct (source_fetchall w _ k) as [rows|e]; by rewrite <- ?app_assoc.
Qed.



(** The PostgreSQL connector never raises, whatever the secret holds.  The
    SQL Server connector raises in one case only: the driver is there and
    the secret is not a JSON object, so that building the connection string
    fails before the [try] block is entered and before anything is
    attempted. *)
Theorem connector_containment (w : world) (creds : json) (host : option string)
    (db_name query : string) (t : trace) :
  (exists rows t', execute_postgres_full w creds host db_name query t = (Ret rows, t'))
  ∧ (forall e t',
       execute_mssql_full w creds host db_name query t = (Raise e, t') ->
       e = AttributeError ∧ t' = t ∧ HAS_MSSQL w = true ∧ has_get creds = false)
  ∧ (HAS_MSSQL w = true -> has_get creds = false ->
     execute_mssql_full w creds host db_name query t = (Raise AttributeError, t)).
Proof.
  split; [|split].
  - unfold execute_postgres_full. destruct (HAS_POSTGRES w); simpl; [|by eexists _, _].
    unfold try_except, bind at 1, read_login.
    destruct (has_get creds); simpl; [|by eexists _, _].
    destruct (read_source w Postgres creds host db_name query t) as [[rows|e] t'];
      simpl; by eexists _, _.
  - unfold execute_mssql_full, read_login, try_except, bind.
    destruct (HAS_MSSQL w); simpl; [|intros e t' H; discriminate H].
    destruct (has_get creds); simpl.
    + intros e t'.
      destruct (read_source w Mssql creds host db_name query t) as [[rows|e0] t0];
        simpl; intros H; discriminate H.
    + by intros e t' [= <- <-].
  - intros Hd Hc. unfold execute_mssql_full, read_login, bind. by rewrite Hd, Hc.
Qed.

(** An instance whose engine needs a driver that could not be imported is
    treated as holding no data: its connector answers with the empty list at
    once, so that after the secret lookup no connection is attempted,
    nothing is logged but 'no data', nothing is written and the totals and
    the report are unchanged. *)
Theorem missing_driver_means_no_data (w : world) (cfg : config) (acc : account)
    (st : totals) (db : db_instance) (creds : json) (t t1 : trace) :
  (str_in "sqlserver" (Engine db) = true ∧ HAS_MSSQL w = false)
  ∨ (str_in "sqlserver" (Engine db) = false ∧ str_in "postgres" (Engine db) = true
     ∧ HAS_POSTGRES w = false) ->
  skipped cfg db = false ->
  get_secret_local w (instance_secret_name (Id acc) (DBInstanceIdentifier db))
    (t ++ [Log Info (LoadingFrom (DBInstanceIdentifier db) (Engine db))])
  = (Ret creds, t1) ->
  truthy creds = true ->
  fetch_full_data w creds (Engine db) (Endpoint db) t1 = (Ret [], t1)
  ∧ process_instance w cfg acc st db t = (Ret st, t1 ++ [Log Info NoDataFound]).
Proof.
  intros Hdriver Hs Hsecret Hc.
  assert (Hf : fetch_full_data w creds (Engine db) (Endpoint db) t1 = (Ret [], t1)).
  { unfold fetch_full_data, execute_mssql_full, execute_postgres_full.
    destruct Hdriver as [[-> ->]|(-> & -> & ->)]; done. }
  split; [exact Hf|].
  unfold process_instance. rewrite Hs.
  unfold bind at 1. unfold log at 1. unfold bind at 1. rewrite Hsecret, Hc. simpl.
  unfold bind at 1. by rewrite Hf.
Qed.

Lemma missing_driver_means_no_data_witness :
  ((str_in "sqlserver" (Engine billing_db) = true ∧ HAS_MSSQL no_mssql_world = false)
   ∨ (str_in "sqlserver" (Engine billing_db) = false
      ∧ str_in "postgres" (Engine billing_db) = true
      ∧ HAS_POSTGRES no_mssql_world = false))
  ∧ skipped one_account billing_db = false
  ∧ truthy login = true
  ∧ process_instance no_mssql_world one_account tenant_one (mk_totals 0 []) billing_db []
    = (Ret (mk_totals 0 []),
       [Log Info (LoadingFrom "billing" "sqlserver-ee");
        GetSecretValue (instance_secret_name "111122223333" "billing")]
       ++ [Log Info NoDataFound]).
Proof.
  assert (Hd : (str_in "sqlserver" (Engine billing_db) = true
                ∧ HAS_MSSQL no_mssql_world = false)
               ∨ (str_in "sqlserver" (Engine billing_db) = false
                  ∧ str_in "postgres" (Engine billing_db) = true
                  ∧ HAS_POSTGRES no_mssql_world = false))
    by (left; split; reflexivity).
  assert (Hs : skipped one_account billing_db = false) by (vm_compute; reflexivity).
  assert (Hc : truthy login = true) by reflexivity.
  split; [exact Hd|]. split; [exact Hs|]. split; [exact Hc|].
  refine (proj2 (missing_driver_means_no_data no_mssql_world one_account tenant_one
                   (mk_totals 0 []) billing_db login [] _ Hd Hs _ Hc)).
  vm_compute. reflexivity.
Defined.

Lemma connector_rows (w : world) (k : engine_kind) (creds : json)
    (host : option string) (db_name query : string) (t t' : trace)
    (rows : list (list (string * pyval))) :
  try_except (read_source w k creds host db_name query) any_exception
    (fun _ => log Error (SourceFailed k) ;;; ret []) t = (Ret rows, t') ->
  rows ≠ [] ->
  t' = t ++ [SourceConnect k host db_name; SourceExecute k query;
             SourceFetch k; SourceClose k]
  ∧ source_fetchall w (t ++ [SourceConnect k host db_name; SourceExecute k query]) k
    = Ret rows.
Proof.
  unfold try_except. rewrite read_source_eq.
  destruct (source_connect w t k creds host db_name) as [e|];
    [simpl; unfold bind, log, ret; simpl; intros [= <- _] Hne; by destruct Hne|].
  destruct (source_execute w _ k query) as [e|];
    [simpl; unfold bind, log, ret; simpl; intros [= <- _] Hne; by destruct Hne|].
  destruct (source_fetchall w _ k) as [rows'|e];
    [|simpl; unfold bind, log, ret; simpl; intros [= <- _] Hne; by destruct Hne].
  by intros [= <- <-] _.
Qed.

(** Rows come back from a connector only over a connection that has been
    closed: when a connector returns at least one row, it has connected, run
    the query, fetched exactly these rows and closed the connection, in this
    order, and done nothing else. *)
Theorem connector_rows_come_closed (w : world) (creds : json) (host : option string)
    (db_name query : string) (t t' : trace) (rows : list (list (string * pyval))) :
  rows ≠ [] ->
  (execute_postgres_full w creds host db_name query t = (Ret rows, t') ->
   t' = t ++ [SourceConnect Postgres host db_name; SourceExecute Postgres query;
              SourceFetch Postgres; SourceClose Postgres]
   ∧ source_fetchall w
       (t ++ [SourceConnect Postgres host db_name; SourceExecute Postgres query])
       Postgres = Ret rows)
  ∧ (execute_mssql_full w creds host db_name query t = (Ret rows, t') ->
     t' = t ++ [SourceConnect Mssql host db_name; SourceExecute Mssql query;
                SourceFetch Mssql; SourceClose Mssql]
     ∧ source_fetchall w
         (t ++ [SourceConnect Mssql host db_name; SourceExecute Mssql query])
         Mssql = Ret rows).
Proof.
  intros Hne. split.
  - unfold execute_postgres_full.
    destruct (HAS_POSTGRES w); simpl; [|intros [= <- _]; by destruct Hne].
    intros H. apply (connector_rows w Postgres creds host db_name query t t' rows);
      [|done].
    revert H. unfold try_except, bind at 1, read_login.
    destruct (has_get creds); simpl; [done|].
    unfold bind, log, ret. simpl. intros [= <- _]. by destruct Hne.
  - unfold execute_mssql_full.
    destruct (HAS_MSSQL w); simpl; [|intros [= <- _]; by destruct Hne].
    unfold bind at 1, read_login. destruct (has_get creds); simpl; [|done].
    intros H. by apply (connector_rows w Mssql creds host db_name query t t' rows).
Qed.

Lemma connector_rows_come_closed_witness :
  three_rows ≠ []
  ∧ execute_postgres_full calm_world login (Some "orders.example") SOURCE_DB_NAME
      query_all []
    = (Ret three_rows,
       [SourceConnect Postgres (Some "orders.example") SOURCE_DB_NAME;
        SourceExecute Postgres query_all; SourceFetch Postgres;
        SourceClose Postgres])
  ∧ source_fetchall calm_world
      ([] ++ [SourceConnect Postgres (Some "orders.example") SOURCE_DB_NAME;
              SourceExecute Postgres query_all]) Postgres
    = Ret three_rows.
Proof.
  assert (H : three_rows ≠ []) by discriminate.
  assert (Hrun : execute_postgres_full calm_world login (Some "orders.example")
                   SOURCE_DB_NAME query_all []
                 = (Ret three_rows,
                    [SourceConnect Postgres (Some "orders.example") SOURCE_DB_NAME;
                     SourceExecute Postgres query_all; SourceFetch Postgres;
                     SourceClose Postgres])) by (vm_compute; reflexivity).
  split; [exact H|]. split; [exact Hrun|].
  exact (proj2 (proj1 (connector_rows_come_closed calm_world login
                         (Some "orders.example") SOURCE_DB_NAME query_all [] _
                         three_rows H) Hrun)).
Defined.

(** ** Accounts that cannot be entered *)

Lemma process_account_eq (w : world) (cfg : config) (st : totals) (acc : account)
    (t : trace) :
  process_account w cfg st acc t =
    match sts_assume_role w t (Id acc) ROLE_NAME with
    | Some _ =>
      (Ret st, t ++ [AssumeRole (Id acc) ROLE_NAME; Log Error (AssumeRoleFailed (Id acc))])
    | None =>
      match describe_db_instances w (t ++ [AssumeRole (Id acc) ROLE_NAME]) (Id acc) with
      | Raise _ =>
        (Ret st, t ++ [AssumeRole (Id acc) ROLE_NAME; DescribeDBInstances (Id acc);
                       Log Error (ListingFailed (Id acc))])
      | Ret dbs =>
        for_each (process_instance w cfg acc) dbs st
          (t ++ [AssumeRole (Id acc) ROLE_NAME; DescribeDBInstances (Id acc)])
      end
    end.
Proof.
  unfold process_account, assume_role, list_instances, try_except, call_db,
    call_value.
  unfold bind at 1. unfold bind at 1. unfold bind at 1. unfold call at 1.
  destruct (sts_assume_role w t (Id acc) ROLE_NAME) as [e|]; simpl.
  - unfold bind, log, ret. simpl. by rewrite <- app_assoc.
  - unfold bind at 1. unfold bind at 1. unfold bind at 1. unfold call at 1.
    destruct (describe_db_instances w _ (Id acc)) as [dbs|e]; simpl.
    + by rewrite <- app_assoc.
    + unfold bind, log, ret. simpl. by rewrite <- !app_assoc.
Qed.

(** When the role cannot be assumed in an account, whatever the exception,
    the account is skipped after an error line: no listing, no lookup, no
    connection, no write, and the totals and the report are as they were. *)
Theorem unassumable_account_is_skipped (w : world) (cfg : config) (st : totals)
    (acc : account) (t : trace) (e : exn) :
  sts_assume_role w t (Id acc) ROLE_NAME = Some e ->
  process_account w cfg st acc t
  = (Ret st, t ++ [AssumeRole (Id acc) ROLE_NAME; Log Error (AssumeRoleFailed (Id acc))]).
Proof. intros H. by rewrite process_account_eq, H. Qed.

Lemma unassumable_account_is_skipped_witness :
  sts_assume_role no_trust_world [] (Id tenant_one) ROLE_NAME = Some ClientError
  ∧ process_account no_trust_world one_account (mk_totals 4 ["kept: 4 records loaded"])
      tenant_one []
    = (Ret (mk_totals 4 ["kept: 4 records loaded"]),
       [] ++ [AssumeRole (Id tenant_one) ROLE_NAME;
              Log Error (AssumeRoleFailed (Id tenant_one))]).
Proof.
  assert (H : sts_assume_role no_trust_world [] (Id tenant_one) ROLE_NAME
              = Some ClientError) by reflexivity.
  split; [exact H|].
  exact (unassumable_account_is_skipped no_trust_world one_account _ tenant_one []
           ClientError H).
Defined.

(** When the instances of an account cannot be listed, whatever the
    exception, the account is skipped after an error line: no lookup, no
    connection, no write, and the totals and the report are as they were. *)
Theorem unlistable_account_is_skipped (w : world) (cfg : config) (st : totals)
    (acc : account) (t : trace) (e : exn) :
  sts_assume_role w t (Id acc) ROLE_NAME = None ->
  describe_db_instances w (t ++ [AssumeRole (Id acc) ROLE_NAME]) (Id acc) = Raise e ->
  process_account w cfg st acc t
  = (Ret st, t ++ [AssumeRole (Id acc) ROLE_NAME; DescribeDBInstances (Id acc);
                   Log Error (ListingFailed (Id acc))]).
Proof. intros Hs Hd. by rewrite process_account_eq, Hs, Hd. Qed.

Lemma unlistable_account_is_skipped_witness :
  sts_assume_role throttled_world [] (Id tenant_one) ROLE_NAME = None
  ∧ describe_db_instances throttled_world
      ([] ++ [AssumeRole (Id tenant_one) ROLE_NAME]) (Id tenant_one)
    = Raise ClientError
  ∧ process_account throttled_world one_account (mk_totals 0 []) tenant_one []
    = (Ret (mk_totals 0 []),
       [] ++ [AssumeRole (Id tenant_one) ROLE_NAME;
              DescribeDBInstances (Id tenant_one);
              Log Error (ListingFailed (Id tenant_one))]).
Proof.
  assert (Hs : sts_assume_role throttled_world [] (Id tenant_one) ROLE_NAME = None)
    by reflexivity.
  assert (Hd : describe_db_instances throttled_world
                 ([] ++ [AssumeRole (Id tenant_one) ROLE_NAME]) (Id tenant_one)
               = Raise ClientError) by reflexivity.
  split; [exact Hs|]. split; [exact Hd|].
  exact (unlistable_account_is_skipped throttled_world one_account _ tenant_one []
           ClientError Hs Hd).
Defined.

(** ** The central connection *)

(** With central credentials at hand, a missing PostgreSQL driver, or a
    secret that is not a JSON object, ends the run with the 500 response
    before any connection is attempted: nothing happens after the secret
    lookup. *)
Theorem central_connection_refused_early (w : world) (cfg : config) :
  past_credentials w = true ->
  (HAS_POSTGRES w = false ->
   run w cfg
   = (Ret {| statusCode := 500; body := FatalError MissingDriver |},
      (get_secret_local w CENTRAL_REPO_SECRET_NAME [Log Info StartingLoad]).2))
  ∧ (HAS_POSTGRES w = true ->
     (forall creds, (get_secret_local w CENTRAL_REPO_SECRET_NAME
                       [Log Info StartingLoad]).1 = Ret creds ->
                    has_get creds = false) ->
     run w cfg
     = (Ret {| statusCode := 500; body := FatalError AttributeError |},
        (get_secret_local w CENTRAL_REPO_SECRET_NAME [Log Info StartingLoad]).2)).
Proof.
  unfold past_credentials. intros Hp. rewrite run_eq.
  destruct (get_secret_local w CENTRAL_REPO_SECRET_NAME [Log Info StartingLoad])
    as [[creds|e] t0]; [|discriminate Hp].
  rewrite Hp, get_central_connection_eq. simpl. split.
  - by intros ->.
  - intros -> Hc. simpl. by rewrite (Hc creds eq_refl).
Qed.

Lemma central_connection_refused_early_witness :
  past_credentials no_driver_world = true
  ∧ HAS_POSTGRES no_driver_world = false
  ∧ run no_driver_world one_account
    = (Ret {| statusCode := 500; body := FatalError MissingDriver |},
       (get_secret_local no_driver_world CENTRAL_REPO_SECRET_NAME
          [Log Info StartingLoad]).2).
Proof.
  assert (H : past_credentials no_driver_world = true) by (vm_compute; reflexivity).
  split; [exact H|]. split; [reflexivity|].
  exact (proj1 (central_connection_refused_early no_driver_world one_account H)
           eq_refl).
Defined.

(** ** Who touches what *)

Lemma emits_weaken {A} (P Q : event -> bool) (m : M A) :
  (forall e, P e = true -> Q e = true) -> emits P m -> emits Q m.
Proof.
  intros HPQ Hm t. destruct (Hm t) as (d & Hd & HP). exists d. split; [done|].
  eapply Forall_impl; [exact HP|exact HPQ].
Qed.

Lemma emits_run {A} (P : event -> bool) (m : M A) (t t' : trace) (o : outcome A) :
  emits P m -> m t = (o, t') -> exists d, t' = t ++ d ∧ Forall (fun e => P e = true) d.
Proof. intros Hm H. destruct (Hm t) as (d & Hd & HP). rewrite H in Hd. by exists d. Qed.

Lemma get_secret_local_reader (w : world) (name : string) :
  emits reader_event (get_secret_local w name).
Proof.
  unfold get_secret_local. emits_all.
  match goal with a : secret_reply |- _ => destruct a as [e|[[|j]|]] end;
    unfold json_loads; emits_all.
Qed.

Lemma fetch_full_data_reader (w : world) (creds : json) (engine : string)
    (host : option string) :
  emits reader_event (fetch_full_data w creds engine host).
Proof.
  unfold fetch_full_data, execute_mssql_full, execute_postgres_full, read_login,
    read_source.
  repeat case_match; emits_all.
Qed.

(** The secret resolver and the dispatched connector are confined to their
    own collaborators: all they ever do is look a secret up, talk to a
    source database and log.  They never assume a role, list instances, or
    use the central connection. *)
Theorem readers_leave_central_alone (w : world) (name : string) (creds : json)
    (engine : string) (host : option string) (t : trace) :
  (exists d, (get_secret_local w name t).2 = t ++ d
             ∧ Forall (fun e => reader_event e = true) d)
  ∧ (exists d, (fetch_full_data w creds engine host t).2 = t ++ d
               ∧ Forall (fun e => reader_event e = true) d).
Proof.
  split; [apply get_secret_local_reader|apply fetch_full_data_reader].
Qed.

Lemma process_instance_instance_event (w : world) (cfg : config) (acc : account)
    (st : totals) (db : db_instance) :
  emits instance_event (process_instance w cfg acc st db).
Proof.
  unfold process_instance. destruct (skipped cfg db); emits_all.
  - eapply emits_weaken; [|apply get_secret_local_reader]. by intros [].
  - case_match; emits_all.
    + eapply emits_weaken; [|apply fetch_full_data_reader]. by intros [].
    + unfold store_full_data, save_batch_to_central. repeat case_match; emits_all.
Qed.

Lemma instance_loop_instance_event (w : world) (cfg : config) (acc : account)
    (dbs : list db_instance) (st : totals) :
  emits instance_event (for_each (process_instance w cfg acc) dbs st).
Proof. apply emits_for_each. intros ? ?. apply process_instance_instance_event. Qed.

(** ** The phases of a run *)

(** Either the run ends during the setup, without a success result and with
    setup events only, or the setup is followed by the tenant loop and, if
    the loop returns, by the closing of the central connection. *)
Lemma run_phases (w : world) (cfg : config) :
  (¬ is_success (run w cfg).1
   ∧ Forall (fun e => setup_event e = true) (run w cfg).2)
  ∨ (exists pre o t3,
        Forall (fun e => setup_event e = true) pre
        ∧ for_each (process_account w cfg) (TARGET_ACCOUNTS cfg)
            {| total_synced := 0; report := [] |} pre = (o, t3)
        ∧ run w cfg
          = match o with
            | Ret st =>
              (Ret {| statusCode := 200;
                      body := SuccessFullLoad (total_synced st) (report st) |},
               t3 ++ [CentralClose])
            | Raise e => (Raise e, t3)
            end).
Proof.
  assert (Hno : forall (r : response) (t : trace),
             statusCode r = 500%Z -> Forall (fun e => setup_event e = true) t ->
             ¬ is_success (Ret r, t).1
             ∧ Forall (fun e => setup_event e = true) (Ret r, t).2).
  { intros r t H500 Ht. split; [|done]. intros (r' & [= <-] & H200). congruence. }
  assert (Hraise : forall (e : exn) (t : trace),
             Forall (fun e => setup_event e = true) t ->
             ¬ is_success (@Raise response e, t).1
             ∧ Forall (fun e => setup_event e = true) (@Raise response e, t).2).
  { intros e t Ht. split; [|done]. intros (r' & Hr & _). discriminate Hr. }
  rewrite run_eq, get_secret_local_eq.
  destruct (get_secret_value w _ _) as [e|[[|j]|]]; [destruct e|..];
    try solve [left; first [apply Hno|apply Hraise]; by repeat constructor].
  simpl. destruct (truthy j); [|left; apply Hno; by repeat constructor].
  rewrite get_central_connection_eq.
  destruct (HAS_POSTGRES w); [|left; apply Hno; by repeat constructor]. simpl.
  destruct (has_get j); [|left; apply Hno; by repeat constructor].
  destruct (central_connect w _ j); [left; apply Hno; by repeat constructor|].
  rewrite truncate_central_table_eq. simpl.
  destruct (central_truncate w _); [left; apply Hno; by repeat constructor|].
  destruct (central_commit w _); [left; apply Hno; by repeat constructor|].
  right.
  match goal with
  | |- context [for_each ?b ?l ?s ?t] =>
    exists t, (for_each b l s t).1, (for_each b l s t).2;
    destruct (for_each b l s t) as [[st|e] t3]
  end; simpl; (split; [by repeat constructor|done]).
Qed.

Lemma class_excludes (P : event -> bool) (x : event) (t : trace) :
  Forall (fun e => P e = true) t -> P x = false -> x ∉ t.
Proof.
  intros HF HP Hin. rewrite Forall_forall in HF. specialize (HF x Hin). congruence.
Qed.

(** The central connection is closed by the runs that return the success
    result, once, as their last act, and by no other run: a run that ends
    with the 500 response or with an exception never closes it, not even
    when it had opened it. *)
Theorem central_connection_closed_on_success_only (w : world) (cfg : config) :
  (is_success (run w cfg).1 ->
   exists t, (run w cfg).2 = t ++ [CentralClose] ∧ CentralClose ∉ t)
  ∧ (¬ is_success (run w cfg).1 -> CentralClose ∉ (run w cfg).2).
Proof.
  destruct (run_phases w cfg) as [[Hns Hsetup]|(pre & o & t3 & Hpre & Hloop & Hrun)].
  - split; [done|]. intros _. by eapply class_excludes.
  - destruct (emits_run _ _ _ _ _ (tenant_loop_tenant w cfg _) Hloop)
      as (d & -> & Hd).
    assert (Hno : CentralClose ∉ pre ++ d).
    { apply not_elem_of_app. split; by eapply class_excludes. }
    rewrite Hrun. destruct o as [st|e]; simpl.
    + split; [intros _; by eexists|]. intros Hns. destruct Hns. by eexists.
    + split; [|done]. intros (r & Hr & _). discriminate Hr.
Qed.

(** ** The order of the accounts *)

Lemma assumed_roles_app (t1 t2 : trace) :
  assumed_roles (t1 ++ t2) = assumed_roles t1 ++ assumed_roles t2.
Proof. apply omap_app. Qed.

Lemma assumed_roles_none (P : event -> bool) (t : trace) :
  (forall e, P e = true -> is_assume e = false) ->
  Forall (fun e => P e = true) t -> assumed_roles t = [].
Proof.
  intros HP. induction 1 as [|e t He _ IH]; [done|].
  specialize (HP e He). destruct e; try discriminate HP; exact IH.
Qed.

Lemma process_account_assumed (w : world) (cfg : config) (st : totals)
    (acc : account) (t t' : trace) (o : outcome totals) :
  process_account w cfg st acc t = (o, t') ->
  assumed_roles t' = assumed_roles t ++ [(Id acc, ROLE_NAME)].
Proof.
  rewrite process_account_eq.
  destruct (sts_assume_role w t (Id acc) ROLE_NAME) as [e|].
  { intros [= _ <-]. by rewrite assumed_roles_app. }
  destruct (describe_db_instances w _ (Id acc)) as [dbs|e].
  - intros H.
    destruct (emits_run _ _ _ _ _ (instance_loop_instance_event w cfg acc dbs st) H)
      as (d & -> & Hd).
    rewrite !assumed_roles_app, (assumed_roles_none instance_event d); [|by intros []|done].
    by rewrite app_nil_r.
  - intros [= _ <-]. by rewrite assumed_roles_app.
Qed.

Lemma account_loop_assumed (w : world) (cfg : config) (l : list account) :
  forall (st : totals) (t t' : trace) (o : outcome totals),
    for_each (process_account w cfg) l st t = (o, t') ->
    exists done rest,
      l = done ++ rest
      ∧ assumed_roles t'
        = assumed_roles t ++ map (fun acc => (Id acc, ROLE_NAME)) done
      ∧ (forall st', o = Ret st' -> rest = []).
Proof.
  induction l as [|acc l IH]; intros st t t' o; simpl.
  - intros [= <- <-]. exists [], []. simpl. by rewrite app_nil_r.
  - unfold bind. destruct (process_account w cfg st acc t) as [[st1|e] t1] eqn:E.
    + intros H. destruct (IH st1 t1 t' o H) as (done & rest & -> & Ha & Hr).
      exists (acc :: done), rest. split; [done|]. split; [|done].
      rewrite Ha, (process_account_assumed _ _ _ _ _ _ _ E). simpl.
      by rewrite <- app_assoc.
    + intros [= <- <-]. exists [acc], l. split; [done|]. split; [|done].
      by rewrite (process_account_assumed _ _ _ _ _ _ _ E).
Qed.

(** The configured accounts are entered in the order of the configuration,
    each at most once and always under the role CUST_DBA_AUDIT: the roles a
    run assumes are those of an initial part of the list, and of the whole
    list when the run returns the success result. *)
Theorem accounts_assumed_in_order (w : world) (cfg : config) :
  (exists done rest,
      TARGET_ACCOUNTS cfg = done ++ rest
      ∧ assumed_roles (run w cfg).2 = map (fun acc => (Id acc, ROLE_NAME)) done)
  ∧ (is_success (run w cfg).1 ->
     assumed_roles (run w cfg).2
     = map (fun acc => (Id acc, ROLE_NAME)) (TARGET_ACCOUNTS cfg)).
Proof.
  destruct (run_phases w cfg) as [[Hns Hsetup]|(pre & o & t3 & Hpre & Hloop & Hrun)].
  - split; [|done]. exists [], (TARGET_ACCOUNTS cfg). split; [done|].
    apply (assumed_roles_none setup_event); [by intros []|done].
  - destruct (account_loop_assumed w cfg _ _ _ _ _ Hloop)
      as (done & rest & Hl & Ha & Hr).
    rewrite (assumed_roles_none setup_event pre) in Ha; [|by intros []|done].
    simpl in Ha. rewrite Hrun. destruct o as [st|e]; simpl.
    + rewrite assumed_roles_app, Ha. simpl. rewrite app_nil_r.
      rewrite (Hr st eq_refl), app_nil_r in Hl. subst done.
      split; [|done]. exists (TARGET_ACCOUNTS cfg), []. by rewrite app_nil_r.
    + split; [by exists done, rest|]. intros (r & Hr' & _). discriminate Hr'.
Qed.

(** ** The totals and the writes *)

Lemma report_of_writes_app (t1 t2 : trace) :
  report_of_writes (t1 ++ t2) = report_of_writes t1 ++ report_of_writes t2.
Proof. apply omap_app. Qed.

Lemma records_written_app (t1 t2 : trace) :
  records_written (t1 ++ t2) = (records_written t1 + records_written t2)%nat.
Proof. unfold records_written. by rewrite omap_app, sum_list_with_app. Qed.

Lemma no_write_no_record (P : event -> bool) (t : trace) :
  (forall e, P e = true -> is_write e = false) ->
  Forall (fun e => P e = true) t ->
  report_of_writes t = [] ∧ records_written t = 0%nat.
Proof.
  intros HP. induction 1 as [|e t He _ [IH1 IH2]]; [done|].
  specialize (HP e He). destruct e; try discriminate HP; by split.
Qed.

Lemma totals_match_quiet (P : event -> bool) (st : totals) (t d : trace) :
  (forall e, P e = true -> is_write e = false) ->
  Forall (fun e => P e = true) d ->
  totals_match st t -> totals_match st (t ++ d).
Proof.
  intros HP Hd [Hr Ht]. destruct (no_write_no_record P d HP Hd) as [Hd1 Hd2].
  unfold totals_match.
  rewrite report_of_writes_app, records_written_app, Hd1, Hd2, app_nil_r.
  split; [done|lia].
Qed.

Lemma store_full_data_totals (w : world) (acc_name db_id : string) (st st' : totals)
    (rows : list (list (string * pyval))) (t t' : trace) :
  totals_match st t ->
  store_full_data w acc_name db_id st rows t = (Ret st', t') ->
  totals_match st' t'.
Proof.
  intros Hm. unfold store_full_data. destruct rows as [|r rows].
  - unfold bind, log, ret. simpl. intros [= <- <-].
    apply (totals_match_quiet reader_event); [by intros []|by repeat constructor|done].
  - unfold bind at 1. unfold log at 1. unfold bind at 1.
    rewrite save_batch_to_central_eq. cbv zeta.
    destruct (central_executemany w _ _) as [e|]; [discriminate|].
    destruct (central_commit w _) as [e|]; [discriminate|].
    unfold ret. intros [= <- <-]. destruct Hm as [Hr Ht]. unfold totals_match.
    rewrite <- app_assoc, report_of_writes_app, records_written_app. simpl.
    rewrite <- Hr, <- Ht. unfold records_written. simpl.
    unfold build_params. rewrite length_map. split; [done|lia].
Qed.

Lemma process_instance_totals (w : world) (cfg : config) (acc : account)
    (st st' : totals) (db : db_instance) (t t' : trace) :
  totals_match st t ->
  process_instance w cfg acc st db t = (Ret st', t') ->
  totals_match st' t'.
Proof.
  intros Hm. unfold process_instance. destruct (skipped cfg db).
  { by intros [= <- <-]. }
  unfold bind at 1. unfold log at 1. unfold bind at 1.
  destruct (get_secret_local w _ _) as [[creds|e] t1] eqn:Hs; [|discriminate].
  destruct (emits_run _ _ _ _ _ (get_secret_local_reader w _) Hs) as (d1 & -> & Hd1).
  assert (Hm1 : totals_match st ((t ++ [Log Info (LoadingFrom (DBInstanceIdentifier db)
                                                    (Engine db))]) ++ d1)).
  { apply (totals_match_quiet reader_event); [by intros []|done|].
    apply (totals_match_quiet reader_event); [by intros []|by repeat constructor|done]. }
  destruct (truthy creds); simpl.
  - unfold bind at 1.
    destruct (fetch_full_data w creds _ _ _) as [[rows|e] t2] eqn:Hf; [|discriminate].
    destruct (emits_run _ _ _ _ _ (fetch_full_data_reader w _ _ _) Hf)
      as (d2 & -> & Hd2).
    apply store_full_data_totals.
    apply (totals_match_quiet reader_event); [by intros []|done|done].
  - unfold bind, log, ret. simpl. intros [= <- <-].
    apply (totals_match_quiet reader_event); [by intros []|by repeat constructor|done].
Qed.

(** A property of the totals and the history that the loop body keeps is
    kept by the loop. *)
Lemma for_each_keeps {A} (I : totals -> trace -> Prop)
    (body : totals -> A -> M totals) (l : list A) :
  (forall s x t s' t', I s t -> body s x t = (Ret s', t') -> I s' t') ->
  forall s t s' t', I s t -> for_each body l s t = (Ret s', t') -> I s' t'.
Proof.
  intros Hbody. induction l as [|x l IH]; intros s t s' t' HI; simpl.
  - by intros [= <- <-].
  - unfold bind. destruct (body s x t) as [[s1|e] t1] eqn:E; [|discriminate].
    apply IH. by eapply Hbody.
Qed.

Lemma process_account_totals (w : world) (cfg : config) (st st' : totals)
    (acc : account) (t t' : trace) :
  totals_match st t ->
  process_account w cfg st acc t = (Ret st', t') ->
  totals_match st' t'.
Proof.
  intros Hm. rewrite process_account_eq.
  destruct (sts_assume_role w t (Id acc) ROLE_NAME) as [e|].
  { intros [= <- <-].
    apply (totals_match_quiet (fun e => negb (is_write e))); [by intros []|by repeat constructor|done]. }
  destruct (describe_db_instances w _ (Id acc)) as [dbs|e].
  - apply for_each_keeps.
    + intros s x t0 s' t0'. apply process_instance_totals.
    + apply (totals_match_quiet (fun e => negb (is_write e))); [by intros []|by repeat constructor|done].
  - intros [= <- <-].
    apply (totals_match_quiet (fun e => negb (is_write e))); [by intros []|by repeat constructor|done].
Qed.

(** In a run that returns the success result, the report and the total are
    an exact account of what was written: the report has one line per batch
    handed to [executemany], in the order of the writes, naming the instance
    the records of the batch are tagged with and their number, and the total
    is the number of records handed to [executemany] over the whole run. *)
Theorem totals_account_for_writes (w : world) (cfg : config) (total : nat)
    (details : list string) :
  (run w cfg).1 = Ret {| statusCode := 200; body := SuccessFullLoad total details |} ->
  details = report_of_writes (run w cfg).2
  ∧ total = records_written (run w cfg).2.
Proof.
  intros Hres.
  destruct (run_phases w cfg) as [[Hns _]|(pre & o & t3 & Hpre & Hloop & Hrun)].
  { destruct Hns. by eexists. }
  rewrite Hrun in Hres |- *. destruct o as [st|e]; [|discriminate Hres].
  simpl in Hres. injection Hres as <- <-.
  assert (H0 : totals_match {| total_synced := 0; report := [] |} pre).
  { destruct (no_write_no_record setup_event pre) as [H1 H2];
      [by intros []|done|]. by split. }
  pose proof (for_each_keeps totals_match (process_account w cfg) _
                (fun s x t s' t' => process_account_totals w cfg s s' x t t')
                _ _ _ _ H0 Hloop) as Hm.
  apply (totals_match_quiet is_close st t3 [CentralClose]) in Hm;
    [|by intros []|by repeat constructor].
  exact Hm.
Qed.

Lemma totals_account_for_writes_witness :
  (run calm_world one_account).1
  = Ret {| statusCode := 200;
           body := SuccessFullLoad 6 ["orders: 3 records loaded";
                                      "billing: 3 records loaded"] |}
  ∧ ["orders: 3 records loaded"; "billing: 3 records loaded"]
    = report_of_writes (run calm_world one_account).2
  ∧ 6%nat = records_written (run calm_world one_account).2.
Proof.
  assert (H : (run calm_world one_account).1
              = Ret {| statusCode := 200;
                       body := SuccessFullLoad 6 ["orders: 3 records loaded";
                                                  "billing: 3 records loaded"] |})
    by (vm_compute; reflexivity).
  split; [exact H|].
  exact (totals_account_for_writes calm_world one_account _ _ H).
Defined.

(** ** What a run may ask for *)

Section Appends.

Context (P : event -> Prop).

Lemma appends_ret {A} (a : A) : appends P (ret a).
Proof. intros t. exists []. by rewrite app_nil_r. Qed.

Lemma appends_raise {A} (e : exn) : appends P (@raise A e).
Proof. intros t. exists []. by rewrite app_nil_r. Qed.

Lemma appends_call {B} (e : event) (answer : trace -> B) :
  P e -> appends P (call e answer).
Proof. intros He t. exists [e]. split; [done|]. by constructor. Qed.

Lemma appends_log lvl msg : P (Log lvl msg) -> appends P (log lvl msg).
Proof. intros He t. exists [Log lvl msg]. split; [done|]. by constructor. Qed.

Lemma appends_bind {A B} (m : M A) (k : A -> M B) :
  appends P m -> (forall a, appends P (k a)) -> appends P (bind m k).
Proof.
  intros Hm Hk t. unfold bind. destruct (Hm t) as (d & Hd & HP).
  destruct (m t) as [[a|e] t']; simpl in Hd; subst t'.
  - destruct (Hk a (t ++ d)) as (d' & Hd' & HP'). exists (d ++ d').
    rewrite Hd', app_assoc. split; [done|]. by apply Forall_app.
  - by exists d.
Qed.

Lemma appends_try_except {A} (m : M A) (handles : exn -> bool) (h : exn -> M A) :
  appends P m -> (forall e, appends P (h e)) -> appends P (try_except m handles h).
Proof.
  intros Hm Hh t. unfold try_except. destruct (Hm t) as (d & Hd & HP).
  destruct (m t) as [[a|e] t']; simpl in Hd; subst t'.
  - by exists d.
  - destruct (handles e); [|by exists d].
    destruct (Hh e (t ++ d)) as (d' & Hd' & HP'). exists (d ++ d').
    rewrite Hd', app_assoc. split; [done|]. by apply Forall_app.
Qed.

Lemma appends_call_db (e : event) (answer : trace -> option exn) :
  P e -> appends P (call_db e answer).
Proof.
  intros He. apply appends_bind; [by apply appends_call|].
  intros [err|]; [apply appends_raise|apply appends_ret].
Qed.

Lemma appends_call_value {B} (e : event) (answer : trace -> outcome B) :
  P e -> appends P (call_value e answer).
Proof.
  intros He. apply appends_bind; [by apply appends_call|].
  intros [b|err]; [apply appends_ret|apply appends_raise].
Qed.

Lemma appends_for_each {A S} (body : S -> A -> M S) (l : list A) :
  (forall s x, x ∈ l -> appends P (body s x)) ->
  forall s, appends P (for_each body l s).
Proof.
  induction l as [|x l IH]; intros Hbody s; simpl.
  - apply appends_ret.
  - apply appends_bind; [apply Hbody; by left|].
    intros s'. apply IH. intros s0 y Hy. apply Hbody. by right.
Qed.

End Appends.

Ltac appends_step :=
  lazymatch goal with
  | |- appends _ (ret _) => apply appends_ret
  | |- appends _ (raise _) => apply appends_raise
  | |- appends _ (log _ _) => apply appends_log; exact I
  | |- appends _ (call _ _) => apply appends_call
  | |- appends _ (call_db _ _) => apply appends_call_db
  | |- appends _ (call_value _ _) => apply appends_call_value
  | |- appends _ (bind _ _) => apply appends_bind; [|intros ?]
  | |- appends _ (try_except _ _ _) => apply appends_try_except; [|intros ?]
  end.

Section Sanctioned.

Variables (w : world) (cfg : config).

Lemma get_secret_local_sanctioned (name : string) :
  sanctioned cfg (GetSecretValue name) ->
  appends (sanctioned cfg) (get_secret_local w name).
Proof.
  intros Hname. unfold get_secret_local. repeat appends_step; [exact Hname|].
  match goal with a : secret_reply |- _ => destruct a as [e|[[|j]|]] end;
    unfold json_loads; repeat appends_step.
Qed.

Lemma read_source_sanctioned (k : engine_kind) (creds : json) (host : option string) :
  appends (sanctioned cfg) (read_source w k creds host SOURCE_DB_NAME query_all).
Proof. unfold read_source. repeat appends_step; done. Qed.

Lemma fetch_full_data_sanctioned (creds : json) (engine : string)
    (host : option string) :
  appends (sanctioned cfg) (fetch_full_data w creds engine host).
Proof.
  unfold fetch_full_data, execute_mssql_full, execute_postgres_full, read_login.
  repeat case_match; repeat appends_step; apply read_source_sanctioned.
Qed.

Lemma store_full_data_sanctioned (acc : account) (db_id : string) (st : totals)
    (rows : list (list (string * pyval))) :
  acc ∈ TARGET_ACCOUNTS cfg -> db_id ∉ BLACKLIST_RDS cfg ->
  appends (sanctioned cfg) (store_full_data w (Name acc) db_id st rows).
Proof.
  intros Hacc Hdb. unfold store_full_data, save_batch_to_central.
  destruct rows as [|r rows]; repeat appends_step; try exact I.
  split; [done|]. exists acc, db_id. split; [done|]. split; [done|].
  unfold build_params. apply Forall_forall. intros c Hc.
  apply list_elem_of_fmap in Hc as (r0 & -> & _). by split.
Qed.

Lemma process_instance_sanctioned (acc : account) (st : totals) (db : db_instance) :
  acc ∈ TARGET_ACCOUNTS cfg ->
  appends (sanctioned cfg) (process_instance w cfg acc st db).
Proof.
  intros Hacc. unfold process_instance.
  destruct (skipped cfg db) eqn:Hs; [apply appends_ret|].
  assert (Hdb : DBInstanceIdentifier db ∉ BLACKLIST_RDS cfg).
  { unfold skipped in Hs. apply orb_false_iff in Hs as [Hs _].
    by apply bool_decide_eq_false in Hs. }
  repeat appends_step.
  - apply get_secret_local_sanctioned. right. by exists acc, (DBInstanceIdentifier db).
  - case_match; repeat appends_step.
    + apply fetch_full_data_sanctioned.
    + by apply store_full_data_sanctioned.
Qed.

Lemma process_account_sanctioned (st : totals) (acc : account) :
  acc ∈ TARGET_ACCOUNTS cfg ->
  appends (sanctioned cfg) (process_account w cfg st acc).
Proof.
  intros Hacc t. rewrite process_account_eq.
  assert (Ha : sanctioned cfg (AssumeRole (Id acc) ROLE_NAME))
    by (split; [done|by exists acc]).
  assert (Hd : sanctioned cfg (DescribeDBInstances (Id acc))) by (by exists acc).
  destruct (sts_assume_role w t (Id acc) ROLE_NAME) as [e|].
  { eexists. split; [done|]. by repeat constructor. }
  destruct (describe_db_instances w _ (Id acc)) as [dbs|e].
  - destruct (appends_for_each (sanctioned cfg) (process_instance w cfg acc) dbs
                (fun s db _ => process_instance_sanctioned acc s db Hacc) st
                (t ++ [AssumeRole (Id acc) ROLE_NAME; DescribeDBInstances (Id acc)]))
      as (d & Hdd & HP).
    exists ([AssumeRole (Id acc) ROLE_NAME; DescribeDBInstances (Id acc)] ++ d).
    rewrite Hdd, <- app_assoc. split; [done|]. by repeat constructor.
  - eexists. split; [done|]. by repeat constructor.
Qed.

Lemma lambda_handler_sanctioned : appends (sanctioned cfg) (lambda_handler w cfg).
Proof.
  unfold lambda_handler, prepare_central, get_central_connection, read_login,
    truncate_central_table.
  repeat appends_step.
  - apply get_secret_local_sanctioned. by left.
  - repeat (case_match; repeat appends_step); try exact I.
    apply appends_for_each. intros s acc Hacc. by apply process_account_sanctioned.
Qed.

End Sanctioned.

(** A run calls its collaborators for configured accounts and eligible
    instances only.  Every secret it looks up is the central one or that of
    an instance that is not on the denylist, in a configured account; every
    role it assumes is CUST_DBA_AUDIT in a configured account; every source
    connection is to the database [dba] and every source query is the fixed
    full scan; and every batch it writes is non-empty, with all its records
    tagged with the name of one configured account and with one instance
    that is not on the denylist. *)
Theorem run_calls_are_sanctioned (w : world) (cfg : config) :
  Forall (sanctioned cfg) (run w cfg).2.
Proof.
  unfold run. destruct (lambda_handler_sanctioned w cfg []) as (d & Hd & HP).
  by rewrite Hd.
Qed.

(** ** Secrets that hold nothing *)

(** A secret that parses to a value Python takes for false (the empty
    object, [null], an empty string, zero, ...) counts as a missing secret,
    without the warning of the resolver: for the central secret the run ends
    with the 500 response right after the lookup; for an instance the
    instance is skipped with the totals and the report unchanged. *)
Theorem falsy_secret_counts_as_missing (w : world) (cfg : config) (j : json) :
  truthy j = false ->
  (get_secret_value w [Log Info StartingLoad] CENTRAL_REPO_SECRET_NAME
   = SecretValue (Some (Parses j)) ->
   run w cfg
   = (Ret {| statusCode := 500; body := NoCredentialsFound |},
      [Log Info StartingLoad; GetSecretValue CENTRAL_REPO_SECRET_NAME]))
  ∧ (forall acc st db t,
       skipped cfg db = false ->
       get_secret_value w
         (t ++ [Log Info (LoadingFrom (DBInstanceIdentifier db) (Engine db))])
         (instance_secret_name (Id acc) (DBInstanceIdentifier db))
       = SecretValue (Some (Parses j)) ->
       process_instance w cfg acc st db t
       = (Ret st,
          t ++ [Log Info (LoadingFrom (DBInstanceIdentifier db) (Engine db));
                GetSecretValue (instance_secret_name (Id acc) (DBInstanceIdentifier db));
                Log Warning
                  (SkipNoSecret
                     (instance_secret_name (Id acc) (DBInstanceIdentifier db)))])).
Proof.
  intros Hj. split.
  - intros H. by rewrite run_eq, get_secret_local_eq, H, Hj.
  - intros acc st db t Hs H. unfold process_instance. rewrite Hs.
    unfold bind at 1. unfold log at 1. unfold bind at 1.
    rewrite get_secret_local_eq, H, Hj. simpl.
    unfold bind, log, ret. simpl. by rewrite <- !app_assoc.
Qed.

Lemma falsy_secret_counts_as_missing_witness :
  truthy (JObj []) = false
  ∧ get_secret_value empty_secret_world [Log Info StartingLoad]
      CENTRAL_REPO_SECRET_NAME
    = SecretValue (Some (Parses (JObj [])))
  ∧ run empty_secret_world one_account
    = (Ret {| statusCode := 500; body := NoCredentialsFound |},
       [Log Info StartingLoad; GetSecretValue CENTRAL_REPO_SECRET_NAME]).
Proof.
  assert (Hj : truthy (JObj []) = false) by reflexivity.
  assert (H : get_secret_value empty_secret_world [Log Info StartingLoad]
                CENTRAL_REPO_SECRET_NAME
              = SecretValue (Some (Parses (JObj [])))) by reflexivity.
  split; [exact Hj|]. split; [exact H|].
  exact (proj1 (falsy_secret_counts_as_missing empty_secret_world one_account
                  (JObj []) Hj) H).
Defined.

(** ** Where exceptions leave the handler *)










